(** * TK905 tracker gateway: the ingestion pipeline

    A shallow embedding of the TCP ingestion pipeline of the gateway
    (frame extraction, protocol decoding, coordinate and time
    normalisation, policy filter, device state store, forwarder) and
    the properties its specification states about it.

    The embedding follows the server with the forwarding policy
    ([FORWARD_ONLY_VALID], [FORWARD_ALLOW_ZERO_COORDS],
    [hasUsableCoords]).  The repository's [index.js] is the earlier
    variant of the same server: its helpers [extractFrames],
    [signedCoord], [toIso], [parseFrame], [kphToKnots] and
    [forwardPosition] are the same text, its handler has no policy
    filter.

    Conventions.
    - A JavaScript string is a [list ascii] of code units; the wire
      protocol is ASCII and the socket is read with
      [setEncoding('utf8')], so a chunk reaches the handler as a string.
    - An index is a [Z]; "not found" is [-1], as in JavaScript.
    - A JavaScript number is a binary64 value: [spec_float] with
      precision 53 and exponent bound 1024, rounded to nearest even.
    - [null] is [None]; so is the [undefined] of a property an object
      does not have, where the code does not tell them apart.
    - A time value is an integer of milliseconds; [NaN] is [None].
    - The module-level object [lastPositions] is a [gmap] from device
      identifiers to entries, threaded through the handler together
      with the lines appended to the log and the requests sent.
    - The wall clock read by [parseFrame] is a parameter. *)

From Stdlib Require Import ZArith List Ascii String Bool Lia.
From Stdlib Require Import Floats.SpecFloat.
From stdpp Require Import gmap strings.
Import ListNotations.

Local Open Scope Z_scope.
Local Open Scope list_scope.

(** ** JavaScript strings *)

Module JsString.

Definition t := list ascii.

Definition str (s : string) : t := list_ascii_of_string s.

Definition len (s : t) : Z := Z.of_nat (length s).

(** [String.prototype.slice]: a negative index counts from the end, and
    both indices are clamped to the string. *)
Definition relIndex (n i : Z) : Z :=
  if i <? 0 then Z.max (n + i) 0 else Z.min i n.

Definition slice (s : t) (b e : Z) : t :=
  let from := relIndex (len s) b in
  let to := relIndex (len s) e in
  firstn (Z.to_nat (to - from)) (skipn (Z.to_nat from) s).

Definition sliceFrom (s : t) (b : Z) : t := slice s b (len s).

(** [String.prototype.indexOf(c, pos)] for a one-character search
    string: the least index [>= pos] holding [c], or [-1]. *)
Fixpoint indexOfAux (c : ascii) (s : t) (i : Z) : Z :=
  match s with
  | [] => -1
  | x :: r => if Ascii.eqb x c then i else indexOfAux c r (i + 1)
  end.

Definition indexOf (s : t) (c : ascii) (pos : Z) : Z :=
  let k := Z.min (Z.max pos 0) (len s) in
  indexOfAux c (skipn (Z.to_nat k) s) k.

(** [String.prototype.lastIndexOf(c)]: the greatest index holding [c],
    or [-1]. *)
Fixpoint lastIndexOfAux (c : ascii) (s : t) (i acc : Z) : Z :=
  match s with
  | [] => acc
  | x :: r => lastIndexOfAux c r (i + 1) (if Ascii.eqb x c then i else acc)
  end.

Definition lastIndexOf (s : t) (c : ascii) : Z := lastIndexOfAux c s 0 (-1).

(** [String.prototype.split(c)] for a one-character separator: never
    empty, the empty string splits into one empty piece. *)
Fixpoint splitAux (c : ascii) (s : t) (cur : t) : list t :=
  match s with
  | [] => [rev cur]
  | x :: r => if Ascii.eqb x c then rev cur :: splitAux c r [] else splitAux c r (x :: cur)
  end.

Definition split (s : t) (c : ascii) : list t := splitAux c s [].

(** [Array.prototype.join(c)] on an array of strings. *)
Fixpoint join (c : ascii) (l : list t) : t :=
  match l with
  | [] => []
  | [x] => x
  | x :: r => x ++ c :: join c r
  end.

End JsString.

Import JsString.

(** ** Frame extractor *)

Record ExtractResult := mkExtract { frames : list JsString.t; remainder : JsString.t }.

(** The [while] loop of [extractFrames].  Every iteration that goes on
    moves [start] at least two characters to the right, so the fuel
    [extractFrames] gives, the length of the buffer, is never what
    stops it ([extractLoop_fuel], [extractFrames_fuel]). *)
Fixpoint extractLoop (fuel : nat) (buf : JsString.t) (start : Z) (acc : list JsString.t)
  : list JsString.t :=
  match fuel with
  | O => acc
  | S fuel' =>
    if start =? -1 then acc
    else
      let end_ := indexOf buf "]" (start + 1) in
      if end_ =? -1 then acc
      else extractLoop fuel' buf (indexOf buf "[" (end_ + 1))
             (acc ++ [slice buf start (end_ + 1)])
  end.

Definition extractFrames (buf : JsString.t) : ExtractResult :=
  let frames := extractLoop (length buf) buf (indexOf buf "[" 0) [] in
  let remainderIdx := lastIndexOf buf "]" in
  {| frames := frames;
     remainder := if remainderIdx =? -1 then buf else sliceFrom buf (remainderIdx + 1) |}.

(** ** JavaScript numbers *)

Module JsNumber.

Definition t := spec_float.

Definition prec : Z := 53.
Definition emax : Z := 1024.

Definition ofZ (z : Z) : t := binary_normalize prec emax z 0 false.

Definition isNaN (x : t) : bool :=
  match x with S754_nan => true | _ => false end.

Definition isFinite (x : t) : bool :=
  match x with S754_zero _ | S754_finite _ _ _ => true | _ => false end.

Definition abs (x : t) : t := SFabs x.
Definition neg (x : t) : t := SFopp x.
Definition mul (x y : t) : t := SFmul prec emax x y.
Definition leb (x y : t) : bool := SFleb x y.

(** [===] on two numbers: [NaN] differs from itself, [+0] equals [-0]. *)
Definition strictEq (x y : t) : bool := SFeqb x y.

(** Same binary64 datum (used for round-trip tests, not a JavaScript
    operator). *)
Definition same (x y : t) : bool :=
  match x, y with
  | S754_zero a, S754_zero b => Bool.eqb a b
  | S754_infinity a, S754_infinity b => Bool.eqb a b
  | S754_nan, S754_nan => true
  | S754_finite a m e, S754_finite b n f => Bool.eqb a b && Pos.eqb m n && Z.eqb e f
  | _, _ => false
  end.

(** The binary64 value nearest to [m * 10 ^ e] for [0 <= m], ties to
    even: the value of a decimal literal. *)
Definition ofDecimal (m e : Z) : t :=
  match m with
  | Zpos p =>
    if 0 <=? e then binary_normalize prec emax (m * 10 ^ e) 0 false
    else SFdiv prec emax (S754_finite false p 0)
           (S754_finite false (Z.to_pos (10 ^ (- e))) 0)
  | _ => S754_zero false
  end.

Definition code (c : ascii) : Z := Z.of_N (N_of_ascii c).

Definition isDigit (c : ascii) : bool := (48 <=? code c) && (code c <=? 57).

Definition digitVal (c : ascii) : Z := code c - 48.

Definition hexVal (c : ascii) : option Z :=
  let n := code c in
  if (48 <=? n) && (n <=? 57) then Some (n - 48)
  else if (65 <=? n) && (n <=? 70) then Some (n - 55)
  else if (97 <=? n) && (n <=? 102) then Some (n - 87)
  else None.

(** White space and line terminators among the code units below 256. *)
Definition isStrWhiteSpace (c : ascii) : bool :=
  let n := code c in
  (n =? 9) || (n =? 10) || (n =? 11) || (n =? 12) || (n =? 13) || (n =? 32) || (n =? 160).

Fixpoint span (p : ascii -> bool) (s : JsString.t) : JsString.t * JsString.t :=
  match s with
  | [] => ([], [])
  | c :: r => if p c then let '(a, b) := span p r in (c :: a, b) else ([], s)
  end.

Fixpoint dropWhile (p : ascii -> bool) (s : JsString.t) : JsString.t :=
  match s with
  | [] => []
  | c :: r => if p c then dropWhile p r else s
  end.

Definition trim (s : JsString.t) : JsString.t :=
  rev (dropWhile isStrWhiteSpace (rev (dropWhile isStrWhiteSpace s))).

Definition digitsVal (ds : JsString.t) : Z :=
  fold_left (fun a c => 10 * a + digitVal c) ds 0.

(** Digits of a [0x], [0o] or [0b] literal: [None] when a character is
    not a digit of the base. *)
Fixpoint radixVal (base : Z) (ds : JsString.t) (a : Z) : option Z :=
  match ds with
  | [] => Some a
  | c :: r =>
    match hexVal c with
    | Some d => if d <? base then radixVal base r (base * a + d) else None
    | None => None
    end
  end.

(** After the [e] of an exponent part: an optional sign and at least
    one digit, up to the end of the string. *)
Definition parseExponent (s : JsString.t) : option Z :=
  let '(negative, r) :=
    match s with
    | "-"%char :: r => (true, r)
    | "+"%char :: r => (false, r)
    | _ => (false, s)
    end in
  let '(ds, rest) := span isDigit r in
  match ds, rest with
  | _ :: _, [] => Some (if negative then - digitsVal ds else digitsVal ds)
  | _, _ => None
  end.

(** [StrUnsignedDecimalLiteral]. *)
Definition parseUnsignedDecimal (s : JsString.t) : option t :=
  if bool_decide (s = str "Infinity") then Some (S754_infinity false)
  else
    let '(ip, r1) := span isDigit s in
    let '(fp, r2) :=
      match r1 with
      | "."%char :: r => span isDigit r
      | _ => ([], r1)
      end in
    match ip ++ fp with
    | [] => None
    | ds =>
      match r2 with
      | [] => Some (ofDecimal (digitsVal ds) (- len fp))
      | c :: r3 =>
        if Ascii.eqb c "e" || Ascii.eqb c "E" then
          match parseExponent r3 with
          | Some x => Some (ofDecimal (digitsVal ds) (x - len fp))
          | None => None
          end
        else None
      end
    end.

(** [NonDecimalIntegerLiteral]: no sign, at least one digit. *)
Definition parseNonDecimal (s : JsString.t) : option t :=
  match s with
  | "0"%char :: p :: ((_ :: _) as ds) =>
    let base :=
      if Ascii.eqb p "x" || Ascii.eqb p "X" then Some 16
      else if Ascii.eqb p "o" || Ascii.eqb p "O" then Some 8
      else if Ascii.eqb p "b" || Ascii.eqb p "B" then Some 2
      else None in
    match base with
    | Some b =>
      match radixVal b ds 0 with
      | Some v => Some (ofZ v)
      | None => None
      end
    | None => None
    end
  | _ => None
  end.

(** [StrNumericLiteral]: the value of [body] when it is a numeric
    literal as a whole. *)
Definition parseNumericLiteral (body : JsString.t) : option t :=
  match parseNonDecimal body with
  | Some v => Some v
  | None =>
    match body with
    | "-"%char :: u => option_map neg (parseUnsignedDecimal u)
    | "+"%char :: u => parseUnsignedDecimal u
    | _ => parseUnsignedDecimal body
    end
  end.

(** [Number(s)] for a string [s] (StringToNumber): white space is
    trimmed, the empty string is [+0], a string that is not a
    StringNumericLiteral is [NaN]. *)
Definition ofString (s : JsString.t) : t :=
  match trim s with
  | [] => S754_zero false
  | body =>
    match parseNumericLiteral body with
    | Some v => v
    | None => S754_nan
    end
  end.

(** *** Numbers to strings *)

Definition digitChar (d : Z) : ascii := ascii_of_N (Z.to_N (48 + d)).

(** Decimal digits of a non-negative integer, most significant first;
    [0] is ["0"]. *)
Fixpoint decimalAux (fuel : nat) (n : Z) (acc : JsString.t) : JsString.t :=
  match fuel with
  | O => acc
  | S f =>
    let acc' := digitChar (n mod 10) :: acc in
    if n <? 10 then acc' else decimalAux f (n / 10) acc'
  end.

Definition decimal (n : Z) : JsString.t :=
  decimalAux (S (Z.to_nat (Z.log2 n))) n [].

(** The exact value of the positive finite [m * 2 ^ e] as a fraction. *)
Definition fraction (m : positive) (e : Z) : Z * Z :=
  if 0 <=? e then (Zpos m * 2 ^ e, 1) else (Zpos m, 2 ^ (- e)).

(** The [n] with [10 ^ (n - 1) <= num / den < 10 ^ n], searched upwards
    from [n]; a positive binary64 value has it between -323 and 309. *)
Fixpoint magnitude (fuel : nat) (num den : Z) (n : Z) : Z :=
  match fuel with
  | O => n
  | S f =>
    let below := if 0 <=? n then num <? den * 10 ^ n else num * 10 ^ (- n) <? den in
    if below then n else magnitude f num den (n + 1)
  end.

(** [floor (num / den * 10 ^ p)]. *)
Definition scaledFloor (num den p : Z) : Z :=
  if 0 <=? p then (num * 10 ^ p) / den else num / (den * 10 ^ (- p)).

(** The shortest digit string [s] of [k] digits and the exponent [n]
    with [s * 10 ^ (n - k)] reading back as [x], the nearest to [x]
    when both neighbours read back and the even one when they are
    equally near; [k] grows until one does, which is at 17 digits at
    the latest. *)
Fixpoint shortest (fuel : nat) (x : t) (num den n k : Z) : Z * Z * Z :=
  let lo := scaledFloor num den (k - n) in
  let hi := lo + 1 in
  let okLo := (10 ^ (k - 1) <=? lo) && same (ofDecimal lo (n - k)) x in
  let okHi := same (ofDecimal hi (n - k)) x in
  (* the distances to [x], scaled by [den * 10 ^ |k - n|] *)
  let toLo :=
    if 0 <=? k - n then num * 10 ^ (k - n) - lo * den
    else num - lo * den * 10 ^ (n - k) in
  let toHi :=
    if 0 <=? k - n then hi * den - num * 10 ^ (k - n)
    else hi * den * 10 ^ (n - k) - num in
  let loNearer := (toLo <? toHi) || ((toLo =? toHi) && Z.even lo) in
  let pickHi := if hi =? 10 ^ k then (10 ^ (k - 1), k, n + 1) else (hi, k, n) in
  match fuel with
  | O => (lo, k, n)
  | S f =>
    if okLo && (negb okHi || loNearer) then (lo, k, n)
    else if okHi then pickHi
    else shortest f x num den n (k + 1)
  end.

Definition zeros (n : Z) : JsString.t := repeat "0"%char (Z.to_nat n).

(** [Number::toString(x)] in radix 10. *)
Definition toString (x : t) : JsString.t :=
  match x with
  | S754_nan => str "NaN"
  | S754_zero _ => str "0"
  | S754_infinity s => (if s then str "-" else []) ++ str "Infinity"
  | S754_finite s m e =>
    let '(num, den) := fraction m e in
    let n0 := magnitude 700 num den (-330) in
    let '(d, k, n) := shortest 20 (S754_finite false m e) num den n0 1 in
    let ds := decimal d in
    let body :=
      if (k <=? n) && (n <=? 21) then ds ++ zeros (n - k)
      else if (0 <? n) && (n <=? 21) then
        firstn (Z.to_nat n) ds ++ "."%char :: skipn (Z.to_nat n) ds
      else if (-6 <? n) && (n <=? 0) then str "0." ++ zeros (- n) ++ ds
      else
        let ex := (if 0 <=? n - 1 then str "+" else str "-") ++ decimal (Z.abs (n - 1)) in
        match ds with
        | [c] => c :: "e"%char :: ex
        | c :: r => c :: "."%char :: r ++ "e"%char :: ex
        | [] => []
        end in
    (if s then str "-" else []) ++ body
  end.

(** [Number.prototype.toFixed(2)]: the integer [n] nearest to
    [100 * x], the larger one on a tie, printed with two decimals;
    values that are not finite or reach [10 ^ 21] print as [toString]
    does. *)
Definition toFixed2 (x : t) : JsString.t :=
  match x with
  | S754_zero _ => str "0.00"
  | S754_finite s m e =>
    let '(num, den) := fraction m e in
    if 10 ^ 21 * den <=? num then toString x
    else
      let n := (200 * num + den) / (2 * den) in
      (if s then str "-" else []) ++
      decimal (n / 100) ++ "."%char :: [digitChar ((n / 10) mod 10); digitChar (n mod 10)]
  | _ => toString x
  end.

End JsNumber.

(** ** JavaScript dates *)

Module JsDate.

Import JsNumber.

Definition msPerDay : Z := 86400000.

Definition DayFromYear (y : Z) : Z :=
  365 * (y - 1970) + (y - 1969) / 4 - (y - 1901) / 100 + (y - 1601) / 400.

Definition InLeapYear (y : Z) : bool :=
  ((y mod 4 =? 0) && negb (y mod 100 =? 0)) || (y mod 400 =? 0).

(** Days of the year before month [m] (January is [0]). *)
Definition daysBeforeMonth (y m : Z) : Z :=
  let l := if InLeapYear y then 1 else 0 in
  match m with
  | 0 => 0
  | 1 => 31
  | 2 => 59 + l
  | 3 => 90 + l
  | 4 => 120 + l
  | 5 => 151 + l
  | 6 => 181 + l
  | 7 => 212 + l
  | 8 => 243 + l
  | 9 => 273 + l
  | 10 => 304 + l
  | _ => 334 + l
  end.

(** [MakeDay], [MakeTime], [MakeDate] and [TimeClip] on integers: a
    month outside [0..11] carries into the year and a day of the month
    outside the month carries into the following months. *)
Definition MakeDay (year month date : Z) : Z :=
  let ym := year + month / 12 in
  let mn := month mod 12 in
  DayFromYear ym + daysBeforeMonth ym mn + date - 1.

Definition MakeTime (hour min sec ms : Z) : Z :=
  hour * 3600000 + min * 60000 + sec * 1000 + ms.

Definition MakeDate (day time : Z) : Z := day * msPerDay + time.

Definition TimeClip (tv : Z) : option Z :=
  if Z.abs tv <=? 8640000000000000 then Some tv else None.

(** [ToIntegerOrInfinity] of a finite number: truncation towards zero.
    [None] for [NaN] and the infinities. *)
Definition toInteger (x : JsNumber.t) : option Z :=
  match x with
  | S754_zero _ => Some 0
  | S754_finite s m e =>
    let '(num, den) := fraction m e in
    Some (if s then - (num / den) else num / den)
  | _ => None
  end.

(** A time value: milliseconds since the epoch, [None] for [NaN]. *)
Definition timeValue := option Z.

(** [Date.UTC(y, m, d, H, M, S)]: an argument that is not finite gives
    [NaN]; a year from 0 to 99 means 1900 + year. *)
Definition UTC (y m d H M S : JsNumber.t) : timeValue :=
  match toInteger y, toInteger m, toInteger d, toInteger H, toInteger M, toInteger S with
  | Some year, Some month, Some date, Some hours, Some minutes, Some seconds =>
    let yr := if (0 <=? year) && (year <=? 99) then 1900 + year else year in
    TimeClip (MakeDate (MakeDay yr month date) (MakeTime hours minutes seconds 0))
  | _, _, _, _, _, _ => None
  end.

(** Year, month (1..12) and day of the month of a day number. *)
Definition civilFromDays (day : Z) : Z * Z * Z :=
  let z := day + 719468 in
  let era := z / 146097 in
  let doe := z - era * 146097 in
  let yoe := (doe - doe / 1460 + doe / 36524 - doe / 146096) / 365 in
  let doy := doe - (365 * yoe + yoe / 4 - yoe / 100) in
  let mp := (5 * doy + 2) / 153 in
  let d := doy - (153 * mp + 2) / 5 + 1 in
  let m := if mp <? 10 then mp + 3 else mp - 9 in
  (yoe + era * 400 + (if m <=? 2 then 1 else 0), m, d).

Definition pad (width : nat) (n : Z) : JsString.t :=
  let ds := decimal n in
  repeat "0"%char (width - length ds) ++ ds.

(** [Date.prototype.toISOString] of a time value that is not [NaN]. *)
Definition toISOString (tv : Z) : JsString.t :=
  let '(y, m, d) := civilFromDays (tv / msPerDay) in
  let t := tv mod msPerDay in
  let year :=
    if (0 <=? y) && (y <=? 9999) then pad 4 y
    else (if y <? 0 then "-"%char else "+"%char) :: pad 6 (Z.abs y) in
  year ++ "-"%char :: pad 2 m ++ "-"%char :: pad 2 d ++ "T"%char ::
  pad 2 (t / 3600000) ++ ":"%char :: pad 2 (t / 60000 mod 60) ++ ":"%char ::
  pad 2 (t / 1000 mod 60) ++ "."%char :: pad 3 (t mod 1000) ++ str "Z".

End JsDate.

(** ** Coordinate and time normaliser *)

Definition signedCoord (v hemi : JsString.t) : option JsNumber.t :=
  let n := JsNumber.ofString v in
  if JsNumber.isNaN n then None
  else if bool_decide (hemi = str "S") || bool_decide (hemi = str "W")
       then Some (JsNumber.neg (JsNumber.abs n))
       else Some (JsNumber.abs n).

(** The test [/^\d{6}$/]. *)
Definition sixDigits (s : JsString.t) : bool :=
  (len s =? 6) && forallb JsNumber.isDigit s.

Definition toIso (dmy hms : JsString.t) : option JsString.t :=
  if negb (sixDigits dmy) || negb (sixDigits hms) then None
  else
    let d := JsNumber.ofString (slice dmy 0 2) in
    let m := SFsub JsNumber.prec JsNumber.emax (JsNumber.ofString (slice dmy 2 4)) (JsNumber.ofZ 1) in
    let y := SFadd JsNumber.prec JsNumber.emax (JsNumber.ofString (slice dmy 4 6)) (JsNumber.ofZ 2000) in
    let H := JsNumber.ofString (slice hms 0 2) in
    let M := JsNumber.ofString (slice hms 2 4) in
    let S := JsNumber.ofString (slice hms 4 6) in
    match JsDate.UTC y m d H M S with
    | None => None
    | Some tv => Some (JsDate.toISOString tv)
    end.

(** ** Protocol decoder *)

(** The object a non-GPS frame decodes to. *)
Record EventRecord := mkEvent {
  ev_deviceId : JsString.t;
  ev_vendor : JsString.t;
  ev_cmd : JsString.t;
  ev_raw : JsString.t
}.

(** The object a GPS frame decodes to. *)
Record PositionRecord := mkPosition {
  deviceId : JsString.t;
  vendor : JsString.t;
  cmd : JsString.t;
  time : option JsString.t;
  valid : bool;
  lat : option JsNumber.t;
  lon : option JsNumber.t;
  speedKph : option JsNumber.t;
  course : option JsNumber.t;
  raw : JsString.t;
  receivedAt : JsString.t
}.

Inductive Decoded :=
| Event (e : EventRecord)
| Position (p : PositionRecord).

(** [pos.deviceId], [pos.cmd], [pos.lat] and [pos.lon] on either kind of
    record; an event has no [lat] or [lon] property ([undefined], here
    [None] as [null] is). *)
Definition deviceIdOf (r : Decoded) : JsString.t :=
  match r with Event e => ev_deviceId e | Position p => deviceId p end.

Definition cmdOf (r : Decoded) : JsString.t :=
  match r with Event e => ev_cmd e | Position p => cmd p end.

Definition latOf (r : Decoded) : option JsNumber.t :=
  match r with Event _ => None | Position p => lat p end.

Definition lonOf (r : Decoded) : option JsNumber.t :=
  match r with Event _ => None | Position p => lon p end.

(** [Number.isFinite(x) ? x : null]. *)
Definition finiteOrNull (x : JsNumber.t) : option JsNumber.t :=
  if JsNumber.isFinite x then Some x else None.

(** [csv[i]]; only read below the length of [csv]. *)
Definition field (csv : list JsString.t) (i : nat) : JsString.t := nth i csv [].

(** [now] is the reading [new Date().toISOString()] of the wall clock
    at the call.  [split] never gives the empty array ([split_not_nil]),
    so [cmd] is always a string. *)
Definition parseFrame (now : JsString.t) (frame : JsString.t) : option Decoded :=
  let body := slice frame 1 (-1) in
  let parts := split body "*" in
  if Z.of_nat (length parts) <? 4 then None
  else
    let vendor := nth 0 parts [] in
    let deviceId := nth 1 parts [] in
    let payload := join "*" (skipn 3 parts) in
    let pieces := split payload "," in
    let cmd := hd [] pieces in
    let csv := tl pieces in
    if Z.of_nat (length csv) <? 9
    then Some (Event (mkEvent deviceId vendor cmd payload))
    else
      let time := toIso (field csv 0) (field csv 1) in
      let valid := bool_decide (field csv 2 = str "A") in
      let lat := signedCoord (field csv 3) (field csv 4) in
      let lon := signedCoord (field csv 5) (field csv 6) in
      let speedKph := JsNumber.ofString (field csv 7) in
      let course := JsNumber.ofString (field csv 8) in
      Some (Position (mkPosition deviceId vendor cmd time valid lat lon
                        (finiteOrNull speedKph) (finiteOrNull course) payload now)).

(** ** Configuration *)

Record Config := mkConfig {
  FORWARD_URL : JsString.t;
  FORWARD_ENABLED : bool;
  FORWARD_ONLY_VALID : bool;
  FORWARD_ALLOW_ZERO_COORDS : bool
}.

(** ** Forwarder *)

(** The literal [0.539956803]. *)
Definition knotsPerKph : JsNumber.t := JsNumber.ofDecimal 539956803 (-9).

Definition kphToKnots (kph : JsNumber.t) : JsNumber.t := JsNumber.mul kph knotsPerKph.

Module URLSearchParams.

Definition t := list (JsString.t * JsString.t).

(** [set(name, value)]: the first pair named [name] takes the value and
    the later ones go; without one the pair is appended. *)
Fixpoint set (name value : JsString.t) (ps : t) : t :=
  match ps with
  | [] => [(name, value)]
  | (n, v) :: r =>
    if bool_decide (n = name)
    then (name, value) :: filter (fun p => negb (bool_decide (fst p = name))) r
    else (n, v) :: set name value r
  end.

Definition hexDigit (d : Z) : ascii :=
  if d <? 10 then ascii_of_N (Z.to_N (48 + d)) else ascii_of_N (Z.to_N (55 + d)).

Definition percent (b : Z) : JsString.t :=
  ["%"%char; hexDigit (b / 16); hexDigit (b mod 16)].

(** The [application/x-www-form-urlencoded] byte serialiser on the
    UTF-8 encoding of a code unit below 256. *)
Definition encodeChar (c : ascii) : JsString.t :=
  let n := JsNumber.code c in
  if n =? 32 then ["+"%char]
  else if ((48 <=? n) && (n <=? 57)) || ((65 <=? n) && (n <=? 90)) || ((97 <=? n) && (n <=? 122))
          || (n =? 42) || (n =? 45) || (n =? 46) || (n =? 95)
  then [c]
  else if n <? 128 then percent n
  else percent (192 + n / 64) ++ percent (128 + n mod 64).

Definition encode (s : JsString.t) : JsString.t := concat (map encodeChar s).

Fixpoint toString (ps : t) : JsString.t :=
  match ps with
  | [] => []
  | [(n, v)] => encode n ++ "="%char :: encode v
  | (n, v) :: r => encode n ++ "="%char :: encode v ++ "&"%char :: toString r
  end.

End URLSearchParams.

(** The request [fetch] is called with. *)
Record Request := mkRequest {
  url : JsString.t;
  method : JsString.t;
  headers : list (JsString.t * JsString.t)
}.

(** [String(x)] for a property that holds a number or [null]. *)
Definition stringOfNumber (x : option JsNumber.t) : JsString.t :=
  match x with
  | Some n => JsNumber.toString n
  | None => str "null"
  end.

(** The query parameters [forwardPosition] sets, in order.  A string is
    truthy when it is not empty; an event has none of the properties
    read but [deviceId]. *)
Definition forwardParams (pos : Decoded) : URLSearchParams.t :=
  match pos with
  | Event e =>
    let params := [] in
    let params := URLSearchParams.set (str "id") (ev_deviceId e) params in
    let params := URLSearchParams.set (str "lat") (str "undefined") params in
    let params := URLSearchParams.set (str "lon") (str "undefined") params in
    params
  | Position pos =>
    let params := [] in
    let params := URLSearchParams.set (str "id") (deviceId pos) params in
    let params := URLSearchParams.set (str "lat") (stringOfNumber (lat pos)) params in
    let params := URLSearchParams.set (str "lon") (stringOfNumber (lon pos)) params in
    let params :=
      match time pos with
      | Some (c :: r) => URLSearchParams.set (str "timestamp") (c :: r) params
      | _ => params
      end in
    let params :=
      URLSearchParams.set (str "valid") (if valid pos then str "true" else str "false") params in
    let params :=
      match speedKph pos with
      | Some kph => URLSearchParams.set (str "speed") (JsNumber.toFixed2 (kphToKnots kph)) params
      | None => params
      end in
    let params :=
      match course pos with
      | Some c => URLSearchParams.set (str "bearing") (JsNumber.toString c) params
      | None => params
      end in
    params
  end.

(** The request of [forwardPosition]; what follows the [fetch] (the
    timeout, the logging of the outcome) changes no state. *)
Definition forwardPosition (cfg : Config) (pos : Decoded) : Request :=
  {| url := FORWARD_URL cfg ++ "?"%char :: URLSearchParams.toString (forwardParams pos);
     method := str "GET";
     headers := [(str "User-Agent", str "tk905-forwarder/1.0")] |}.

(** ** Policy filter *)

Definition isFiniteOpt (x : option JsNumber.t) : bool :=
  match x with Some n => JsNumber.isFinite n | None => false end.

(** [Math.abs(x) <= bound] and [x === 0] on a property that holds a
    number; both are only evaluated after [Number.isFinite(x)]. *)
Definition absLe (x : option JsNumber.t) (bound : Z) : bool :=
  match x with
  | Some n => JsNumber.leb (JsNumber.abs n) (JsNumber.ofZ bound)
  | None => false
  end.

Definition isZero (x : option JsNumber.t) : bool :=
  match x with
  | Some n => JsNumber.strictEq n (JsNumber.ofZ 0)
  | None => false
  end.

Definition hasUsableCoords (cfg : Config) (pos : Decoded) : bool :=
  let ok :=
    isFiniteOpt (latOf pos) && isFiniteOpt (lonOf pos) &&
    absLe (latOf pos) 90 && absLe (lonOf pos) 180 in
  if negb ok then false
  else if negb (FORWARD_ALLOW_ZERO_COORDS cfg) && isZero (latOf pos) && isZero (lonOf pos)
  then false
  else true.

(** ** Device state store and connection handler *)

(** An entry of [lastPositions]: the properties of the position object
    stored last ([own]) and the property [lastEvent]. *)
Record Entry := mkEntry {
  own : option Decoded;
  lastEvent : option Decoded
}.

(** What the handler acts on: the store, the lines handed to
    [fs.appendFile] (the record each line serialises) and the requests
    handed to [fetch], both in call order.  Console output is left out. *)
Record World := mkWorld {
  lastPositions : gmap JsString.t Entry;
  logged : list Decoded;
  forwarded : list Request
}.

(** [pos.valid === true]. *)
Definition validIsTrue (pos : Decoded) : bool :=
  match pos with Event _ => false | Position p => valid p end.

(** [{ ...(prev || {}), lastEvent: pos }]. *)
Definition withLastEvent (prev : option Entry) (pos : Decoded) : Entry :=
  match prev with
  | Some e => {| own := own e; lastEvent := Some pos |}
  | None => {| own := None; lastEvent := Some pos |}
  end.

(** The body of the loop over the frames, for a frame that decoded to
    [pos]. *)
Definition processRecord (cfg : Config) (pos : Decoded) (w : World) : World :=
  if hasUsableCoords cfg pos then
    let store := <[deviceIdOf pos := {| own := Some pos; lastEvent := None |}]> (lastPositions w) in
    let log := logged w ++ [pos] in
    let policyAllows := negb (FORWARD_ONLY_VALID cfg) || validIsTrue pos in
    if FORWARD_ENABLED cfg && policyAllows
    then {| lastPositions := store; logged := log;
            forwarded := forwarded w ++ [forwardPosition cfg pos] |}
    else {| lastPositions := store; logged := log; forwarded := forwarded w |}
  else
    {| lastPositions :=
         <[deviceIdOf pos := withLastEvent (lastPositions w !! deviceIdOf pos) pos]>
           (lastPositions w);
       logged := logged w;
       forwarded := forwarded w |}.

(** One turn of the loop: a frame that does not decode is skipped. *)
Definition processFrame (cfg : Config) (now : JsString.t) (frame : JsString.t) (w : World)
  : World :=
  match parseFrame now frame with
  | None => w
  | Some pos => processRecord cfg pos w
  end.

(** The loop; [clock i] is the wall clock when frame [i] of the event
    is decoded. *)
Fixpoint processFrames (cfg : Config) (clock : nat -> JsString.t) (i : nat)
  (fs : list JsString.t) (w : World) : World :=
  match fs with
  | [] => w
  | f :: r => processFrames cfg clock (S i) r (processFrame cfg (clock i) f w)
  end.

(** The ['data'] handler of a connection: [buffer] is the connection's
    variable of that name. *)
Definition onData (cfg : Config) (clock : nat -> JsString.t) (chunk : JsString.t)
  (st : JsString.t * World) : JsString.t * World :=
  let buffer := fst st ++ chunk in
  let r := extractFrames buffer in
  (remainder r, processFrames cfg clock 0 (frames r) (snd st)).

(** The frames a connection hands to the decoder while its chunks
    arrive, starting from the buffer [buffer]. *)
Fixpoint framesOfChunks (buffer : JsString.t) (chunks : list JsString.t) : list JsString.t :=
  match chunks with
  | [] => []
  | chunk :: rest =>
    let r := extractFrames (buffer ++ chunk) in
    frames r ++ framesOfChunks (remainder r) rest
  end.

Fixpoint bufferAfter (buffer : JsString.t) (chunks : list JsString.t) : JsString.t :=
  match chunks with
  | [] => buffer
  | chunk :: rest => bufferAfter (remainder (extractFrames (buffer ++ chunk))) rest
  end.

(** The connection run over its chunks. *)
Fixpoint onChunks (cfg : Config) (clock : nat -> JsString.t) (chunks : list JsString.t)
  (st : JsString.t * World) : JsString.t * World :=
  match chunks with
  | [] => st
  | chunk :: rest => onChunks cfg clock rest (onData cfg clock chunk st)
  end.

(** ** Vocabulary of the statements *)

(** A search result after the searched string is put behind [k] more
    characters. *)
Definition shift (k x : Z) : Z := if x =? -1 then -1 else x + k.

(** The frame a closing bracket ends, given the characters [p] since
    the previous closing bracket: [p] from its first opening bracket
    on, if it has one. *)
Fixpoint fromOpen (p : JsString.t) : option JsString.t :=
  match p with
  | [] => None
  | x :: r => if Ascii.eqb x "[" then Some p else fromOpen r
  end.

Definition closedFrame (p : JsString.t) : list JsString.t :=
  match fromOpen p with
  | Some f => [f ++ ["]"%char]]
  | None => []
  end.

(** A frame: an opening bracket, a body without closing bracket, a
    closing bracket. *)
Definition WellFramed (f : JsString.t) : Prop :=
  exists body, f = "["%char :: body ++ ["]"%char] /\ ~ In "]"%char body.

(** [InOrder fs s]: the strings [fs] occur in [s] one after the other,
    without overlap. *)
Inductive InOrder : list JsString.t -> JsString.t -> Prop :=
| InOrder_nil s : InOrder [] s
| InOrder_cons gap f fs rest : InOrder fs rest -> InOrder (f :: fs) (gap ++ f ++ rest).

(** The strings ending with a closing bracket, and the empty one. *)
Definition Closed (pre : JsString.t) : Prop :=
  pre = [] \/ exists q, pre = q ++ ["]"%char].

(** [v] is all white space. *)
Definition blank (v : JsString.t) : Prop := JsNumber.trim v = [].

(** [v], white space trimmed, is a numeric literal. *)
Definition isNumeric (v : JsString.t) : bool :=
  match JsNumber.parseNumericLiteral (JsNumber.trim v) with
  | Some _ => true
  | None => false
  end.

Definition southOrWest (hemi : JsString.t) : bool :=
  bool_decide (hemi = str "S") || bool_decide (hemi = str "W").

(** The number [m * 2 ^ e], when binary64 holds it. *)
Definition dyadic (m e : Z) : JsNumber.t :=
  binary_normalize JsNumber.prec JsNumber.emax m e false.

(** Occurrences of a character. *)
Definition occurrences (c : ascii) (s : JsString.t) : nat := count_occ ascii_dec s c.

(** [s] is a number printed with two decimal places: an optional
    minus sign, one digit or more, a point and two digits. *)
Definition twoDecimalPlaces (s : JsString.t) : bool :=
  let unsigned :=
    match s with
    | c :: r => if Ascii.eqb c "-" then r else s
    | [] => s
    end in
  match rev unsigned with
  | d0 :: d1 :: point :: ip =>
    JsNumber.isDigit d0 && JsNumber.isDigit d1 && Ascii.eqb point "."
    && negb (Nat.eqb (length ip) 0) && forallb JsNumber.isDigit ip
  | _ => false
  end.

(** The magnitude of the number [x] is below the integer [bound]. *)
Definition magnitudeBelow (x : JsNumber.t) (bound : Z) : bool :=
  match x with
  | S754_zero _ => true
  | S754_finite _ m e => let '(num, den) := JsNumber.fraction m e in num <? bound * den
  | _ => false
  end.

(** The policy decision of the handler. *)
Definition policyForwards (cfg : Config) (pos : Decoded) : bool :=
  FORWARD_ENABLED cfg && (negb (FORWARD_ONLY_VALID cfg) || validIsTrue pos).

(** The query parameters specified for a position record. *)
Definition expectedParams (p : PositionRecord) : URLSearchParams.t :=
  [(str "id", deviceId p);
   (str "lat", stringOfNumber (lat p));
   (str "lon", stringOfNumber (lon p))]
  ++ match time p with Some t => [(str "timestamp", t)] | None => [] end
  ++ [(str "valid", if valid p then str "true" else str "false")]
  ++ match speedKph p with
     | Some kph => [(str "speed", JsNumber.toFixed2 (JsNumber.mul kph knotsPerKph))]
     | None => []
     end
  ++ match course p with Some c => [(str "bearing", JsNumber.toString c)] | None => [] end.

(** ** Concrete inputs *)

(** The configuration of a process started without environment. *)
Definition defaultConfig : Config :=
  {| FORWARD_URL := str "https://backend.sps-global.com.mx/api/osmand";
     FORWARD_ENABLED := true;
     FORWARD_ONLY_VALID := true;
     FORWARD_ALLOW_ZERO_COORDS := false |}.

Definition emptyWorld : World :=
  {| lastPositions := ∅; logged := []; forwarded := [] |}.

(** The frame of the specification and the record it decodes to at the
    clock reading [now]. *)
Definition specFrame : JsString.t :=
  str "[SG*123456*XX*GPS,010125,120000,A,22.5,N,114.1,E,36.0,90]".

Definition specPosition (now : JsString.t) : PositionRecord :=
  {| deviceId := str "123456"; vendor := str "SG"; cmd := str "GPS";
     time := Some (str "2025-01-01T12:00:00.000Z");
     valid := true;
     lat := Some (dyadic 45 (-1));
     lon := Some (S754_finite false 8029073710671462 (-46));
     speedKph := Some (JsNumber.ofZ 36);
     course := Some (JsNumber.ofZ 90);
     raw := str "GPS,010125,120000,A,22.5,N,114.1,E,36.0,90";
     receivedAt := now |}.

(** A link-keeping frame of the same device: an event. *)
Definition eventFrame : JsString.t := str "[SG*123456*XX*LK,0,0,95]".

Definition specEvent : EventRecord :=
  {| ev_deviceId := str "123456"; ev_vendor := str "SG"; ev_cmd := str "LK";
     ev_raw := str "LK,0,0,95" |}.

Definition noon : JsString.t := str "2025-01-01T12:00:01.000Z".

(** A frame without fix, at latitude 0 and longitude -0 with empty
    date, time, speed and course, and the record it decodes to. *)
Definition zeroFrame : JsString.t := str "[SG*7*XX*GPS,,,V,0,N,0,W,,]".

Definition zeroPosition : PositionRecord :=
  {| deviceId := str "7"; vendor := str "SG"; cmd := str "GPS";
     time := None; valid := false;
     lat := Some (S754_zero false); lon := Some (S754_zero true);
     speedKph := Some (S754_zero false); course := Some (S754_zero false);
     raw := str "GPS,,,V,0,N,0,W,,"; receivedAt := noon |}.

(** The configuration with [FORWARD_ALLOW_ZERO_COORDS] set and the rest
    at its default. *)
Definition allowZeroConfig : Config :=
  {| FORWARD_URL := FORWARD_URL defaultConfig;
     FORWARD_ENABLED := true;
     FORWARD_ONLY_VALID := true;
     FORWARD_ALLOW_ZERO_COORDS := true |}.

(** The frame of the specification with the speed [2e21], and the
    record it decodes to. *)
Definition fastFrame : JsString.t :=
  str "[SG*123456*XX*GPS,010125,120000,A,22.5,N,114.1,E,2e21,90]".

Definition fastPosition : PositionRecord :=
  {| deviceId := str "123456"; vendor := str "SG"; cmd := str "GPS";
     time := Some (str "2025-01-01T12:00:00.000Z");
     valid := true;
     lat := Some (dyadic 45 (-1));
     lon := Some (S754_finite false 8029073710671462 (-46));
     speedKph := Some (JsNumber.ofString (str "2e21"));
     course := Some (JsNumber.ofZ 90);
     raw := str "GPS,010125,120000,A,22.5,N,114.1,E,2e21,90";
     receivedAt := noon |}.

(** ** Configuration from the environment *)

(** The regular expressions of the configuration: a disjunction of
    alternatives, each a sequence of assertions and characters, without
    group or quantifier. *)
Module Regex.

Inductive term :=
| Bol
| Eol
| Char (c : ascii).

Definition alternative := list term.
Definition pattern := list alternative.

(** Canonicalisation under the flag [i], for comparison with the ASCII
    characters of a pattern: a letter is its capital, and a code unit
    from 128 on never becomes one below. *)
Definition upper (c : ascii) : ascii :=
  let n := JsNumber.code c in
  if (97 <=? n) && (n <=? 122) then ascii_of_N (Z.to_N (n - 32)) else c.

Definition sameChar (ignoreCase : bool) (p c : ascii) : bool :=
  if ignoreCase then Ascii.eqb (upper p) (upper c) else Ascii.eqb p c.

(** The terms [ts] match in [s] from index [pos] on. *)
Fixpoint matchTerms (ignoreCase : bool) (ts : alternative) (s : JsString.t) (pos : nat) : bool :=
  match ts with
  | [] => true
  | Bol :: r => Nat.eqb pos 0 && matchTerms ignoreCase r s pos
  | Eol :: r => Nat.eqb pos (length s) && matchTerms ignoreCase r s pos
  | Char p :: r =>
    match nth_error s pos with
    | Some c => sameChar ignoreCase p c && matchTerms ignoreCase r s (S pos)
    | None => false
    end
  end.

(** [RegExp.prototype.test] without the flags [g] and [y]: a match may
    start at any index. *)
Definition test (ignoreCase : bool) (pat : pattern) (s : JsString.t) : bool :=
  existsb (fun pos => existsb (fun alt => matchTerms ignoreCase alt s pos) pat)
    (seq 0 (S (length s))).

End Regex.

(** [/^true|1|yes|on$/i]: the alternation binds weaker than the
    anchors. *)
Definition flagPattern : Regex.pattern :=
  [ [Regex.Bol; Regex.Char "t"; Regex.Char "r"; Regex.Char "u"; Regex.Char "e"];
    [Regex.Char "1"];
    [Regex.Char "y"; Regex.Char "e"; Regex.Char "s"];
    [Regex.Char "o"; Regex.Char "n"; Regex.Eol] ].

(** [/^true|1|yes|on$/i.test(String(value ?? dflt))] for a variable of
    the environment, [None] when it is not set. *)
Definition envFlag (value : option JsString.t) (dflt : JsString.t) : bool :=
  Regex.test true flagPattern (match value with Some v => v | None => dflt end).

(** [Number(value || dflt)]: the default stands for a variable that is
    not set or empty. *)
Definition envNumber (value : option JsString.t) (dflt : Z) : JsNumber.t :=
  match value with
  | Some (c :: r) => JsNumber.ofString (c :: r)
  | _ => JsNumber.ofZ dflt
  end.

(** [value || dflt] on strings. *)
Definition envString (value : option JsString.t) (dflt : JsString.t) : JsString.t :=
  match value with
  | Some (c :: r) => c :: r
  | _ => dflt
  end.

(** The settings the pipeline reads, from [process.env]. *)
Definition loadConfig (env : gmap JsString.t JsString.t) : Config :=
  {| FORWARD_URL :=
       envString (env !! str "FORWARD_URL") (str "https://backend.sps-global.com.mx/api/osmand");
     FORWARD_ENABLED := envFlag (env !! str "FORWARD_ENABLED") (str "true");
     FORWARD_ONLY_VALID := envFlag (env !! str "FORWARD_ONLY_VALID") (str "true");
     FORWARD_ALLOW_ZERO_COORDS := envFlag (env !! str "FORWARD_ALLOW_ZERO_COORDS") (str "false") |}.

Definition TCP_PORT (env : gmap JsString.t JsString.t) : JsNumber.t :=
  envNumber (env !! str "PORT") 5093.

Definition HTTP_PORT (env : gmap JsString.t JsString.t) : JsNumber.t :=
  envNumber (env !! str "HTTP_PORT") 8080.

Definition FORWARD_TIMEOUT_MS (env : gmap JsString.t JsString.t) : JsNumber.t :=
  envNumber (env !! str "FORWARD_TIMEOUT_MS") 8000.

(** ** REST API *)

Inductive Body :=
| Summary (ok : bool) (devices : nat)
| AllDevices (entries : gmap JsString.t Entry)
| OneDevice (entry : Entry)
| ErrorBody (error : JsString.t).

Record Response := mkResponse { status : Z; body : Body }.

(** [GET /]. *)
Definition getRoot (w : World) : Response :=
  {| status := 200; body := Summary true (size (lastPositions w)) |}.

(** [GET /devices]. *)
Definition getDevices (w : World) : Response :=
  {| status := 200; body := AllDevices (lastPositions w) |}.

(** [GET /devices/:id]; an entry is an object, so [!d] holds of a
    missing one only. *)
Definition getDevice (w : World) (id : JsString.t) : Response :=
  match lastPositions w !! id with
  | None => {| status := 404; body := ErrorBody (str "unknown device") |}
  | Some d => {| status := 200; body := OneDevice d |}
  end.

(** ** The server over its connections *)

(** What the sockets deliver: each connection has a [buffer] of its own
    from its creation to its end. *)
Inductive SocketEvent :=
| Connect (conn : nat)
| Data (conn : nat) (chunk : JsString.t)
| Close (conn : nat).

Record Server := mkServer {
  buffers : gmap nat JsString.t;
  world : World
}.

Definition initialServer : Server := {| buffers := ∅; world := emptyWorld |}.

(** One event; [clock] is the wall clock during it.  Data for a
    connection that is not open has no handler. *)
Definition serverStep (cfg : Config) (clock : nat -> JsString.t) (ev : SocketEvent) (s : Server)
  : Server :=
  match ev with
  | Connect c => {| buffers := <[c := []]> (buffers s); world := world s |}
  | Data c chunk =>
    match buffers s !! c with
    | Some buffer =>
      let '(buffer', w') := onData cfg clock chunk (buffer, world s) in
      {| buffers := <[c := buffer']> (buffers s); world := w' |}
    | None => s
    end
  | Close c => {| buffers := delete c (buffers s); world := world s |}
  end.

(** The events in order; [clocks n] is the clock during event [n]. *)
Fixpoint serverRun (cfg : Config) (clocks : nat -> nat -> JsString.t) (n : nat)
  (evs : list SocketEvent) (s : Server) : Server :=
  match evs with
  | [] => s
  | ev :: rest => serverRun cfg clocks (S n) rest (serverStep cfg (clocks n) ev s)
  end.

(** ** The handler of [index.js] *)

(** The body of the loop in [index.js]: any record with both
    coordinates is stored, logged and, when forwarding is enabled,
    forwarded. *)
Definition processRecordLegacy (cfg : Config) (pos : Decoded) (w : World) : World :=
  match latOf pos, lonOf pos with
  | Some _, Some _ =>
    let store := <[deviceIdOf pos := {| own := Some pos; lastEvent := None |}]> (lastPositions w) in
    let log := logged w ++ [pos] in
    if FORWARD_ENABLED cfg
    then {| lastPositions := store; logged := log;
            forwarded := forwarded w ++ [forwardPosition cfg pos] |}
    else {| lastPositions := store; logged := log; forwarded := forwarded w |}
  | _, _ =>
    {| lastPositions :=
         <[deviceIdOf pos := withLastEvent (lastPositions w !! deviceIdOf pos) pos]>
           (lastPositions w);
       logged := logged w;
       forwarded := forwarded w |}
  end.

(** ** Vocabulary of the further statements *)

(** The records a run of frames decodes, in order. *)
Fixpoint decodeFrames (clock : nat -> JsString.t) (i : nat) (fs : list JsString.t)
  : list Decoded :=
  match fs with
  | [] => []
  | f :: r =>
    match parseFrame (clock i) f with
    | Some pos => pos :: decodeFrames clock (S i) r
    | None => decodeFrames clock (S i) r
    end
  end.

(** The loop body over a sequence of decoded records. *)
Definition runRecords (cfg : Config) (rs : list Decoded) (w : World) : World :=
  fold_left (fun w r => processRecord cfg r w) rs w.

(** The records the server decodes over its events, in order. *)
Fixpoint serverRecords (clocks : nat -> nat -> JsString.t) (n : nat)
  (evs : list SocketEvent) (bufs : gmap nat JsString.t) : list Decoded :=
  match evs with
  | [] => []
  | Connect c :: rest => serverRecords clocks (S n) rest (<[c := []]> bufs)
  | Data c chunk :: rest =>
    match bufs !! c with
    | Some buffer =>
      let r := extractFrames (buffer ++ chunk) in
      decodeFrames (clocks n) 0 (frames r)
      ++ serverRecords clocks (S n) rest (<[c := remainder r]> bufs)
    | None => serverRecords clocks (S n) rest bufs
    end
  | Close c :: rest => serverRecords clocks (S n) rest (delete c bufs)
  end.

(** The chunks of connection [c] among the events. *)
Fixpoint chunksOf (c : nat) (evs : list SocketEvent) : list JsString.t :=
  match evs with
  | [] => []
  | Data c' chunk :: rest => if Nat.eqb c' c then chunk :: chunksOf c rest else chunksOf c rest
  | _ :: rest => chunksOf c rest
  end.

(** No event opens or closes connection [c]. *)
Fixpoint keepsOpen (c : nat) (evs : list SocketEvent) : bool :=
  match evs with
  | [] => true
  | Connect c' :: rest => negb (Nat.eqb c' c) && keepsOpen c rest
  | Close c' :: rest => negb (Nat.eqb c' c) && keepsOpen c rest
  | Data _ _ :: rest => keepsOpen c rest
  end.

(** Gaps and frames in turn, then a tail. *)
Fixpoint stream (items : list (JsString.t * JsString.t)) (tail : JsString.t) : JsString.t :=
  match items with
  | [] => tail
  | (gap, f) :: r => gap ++ f ++ stream r tail
  end.

(** A gap without opening bracket before a well-formed frame. *)
Definition GapThenFrame (item : JsString.t * JsString.t) : Prop :=
  ~ In "["%char (fst item) /\ WellFramed (snd item).

Fixpoint leading {A} (p : A -> bool) (l : list A) : list A :=
  match l with
  | [] => []
  | x :: r => if p x then x :: leading p r else []
  end.

(** The longest suffix of elements that satisfy [p]. *)
Definition trailing {A} (p : A -> bool) (l : list A) : list A :=
  rev (leading p (rev l)).

Definition isFrom (id : JsString.t) (r : Decoded) : bool :=
  bool_decide (deviceIdOf r = id).

(** The entry of device [id] after the records [rs], read off the
    sequence: none without a record of the device; else the last
    record of it with usable coordinates, and the last of those that
    follow it without. *)
Definition entryAfter (cfg : Config) (id : JsString.t) (rs : list Decoded) : option Entry :=
  match List.filter (isFrom id) rs with
  | [] => None
  | mine =>
    Some {| own := last (List.filter (hasUsableCoords cfg) mine);
            lastEvent := last (trailing (fun r => negb (hasUsableCoords cfg r)) mine) |}
  end.

(** Days of month [m] (1 to 12) of year [y]. *)
Definition daysInMonth (y m : Z) : Z :=
  if m =? 2 then (if JsDate.InLeapYear y then 29 else 28)
  else if (m =? 4) || (m =? 6) || (m =? 9) || (m =? 11) then 30
  else 31.

(** The number two digits spell. *)
Definition twoDigitVal (a b : ascii) : Z := 10 * JsNumber.digitVal a + JsNumber.digitVal b.

(** The characters the form serialiser leaves or makes. *)
Definition isQuerySafe (c : ascii) : bool :=
  let n := JsNumber.code c in
  ((48 <=? n) && (n <=? 57)) || ((65 <=? n) && (n <=? 90)) || ((97 <=? n) && (n <=? 122))
  || (n =? 42) || (n =? 45) || (n =? 46) || (n =? 95) || (n =? 43) || (n =? 37).

(** [pos.vendor] and [pos.raw] on either kind of record. *)
Definition vendorOf (r : Decoded) : JsString.t :=
  match r with Event e => ev_vendor e | Position p => vendor p end.

Definition rawOf (r : Decoded) : JsString.t :=
  match r with Event e => ev_raw e | Position p => raw p end.

(** The integers from [a], [n] of them. *)
Definition zrange (a : Z) (n : nat) : list Z := map (fun i => a + Z.of_nat i) (seq 0 n).

(** Every day of this century comes back from its day number. *)
Definition centuryDatesCheck : bool :=
  forallb (fun y =>
    forallb (fun m =>
      forallb (fun d =>
        if d <=? daysInMonth y m
        then let '(y', m', d') := JsDate.civilFromDays (JsDate.MakeDay y (m - 1) d) in
             (y' =? y) && (m' =? m) && (d' =? d)
        else true)
        (zrange 1 31))
      (zrange 1 12))
    (zrange 2000 100).

(** Numbers below 100 print as their two digits, and the years of this
    century as four. *)
Definition twoDigitPadCheck : bool :=
  forallb (fun n =>
    bool_decide (JsDate.pad 2 n = [JsNumber.digitChar (n / 10); JsNumber.digitChar (n mod 10)])
    && bool_decide (JsDate.pad 4 (2000 + n)
                    = ["2"%char; "0"%char; JsNumber.digitChar (n / 10); JsNumber.digitChar (n mod 10)]))
    (zrange 0 100).

(** What makes a flag of the configuration true, letter case apart: the
    value begins with [true], or holds a [1], or holds [yes], or ends
    with [on]. *)
Definition flagOn (s : JsString.t) : Prop :=
  (exists t r, s = t ++ r /\ map Regex.upper t = str "TRUE")
  \/ In "1"%char s
  \/ (exists a y b, s = a ++ y ++ b /\ map Regex.upper y = str "YES")
  \/ (exists a o, s = a ++ o /\ map Regex.upper o = str "ON").

(** ** Further concrete inputs *)

(** Noise before the frame of the specification, the link-keeping
    frame right after it, and the beginning of a third frame. *)
Definition noisyItems : list (JsString.t * JsString.t) :=
  [(str "noise", specFrame); ([], eventFrame)].

Definition openTail : JsString.t := str "[SG*12".

(** A server with connection 1 open, and events of two connections:
    the second sends a whole frame between the two halves of a frame of
    the first. *)
Definition oneClient : Server :=
  serverStep defaultConfig (fun _ => noon) (Connect 1%nat) initialServer.

Definition twoClients : list SocketEvent :=
  [Data 1%nat (str "[SG*1"); Connect 2%nat; Data 2%nat specFrame;
   Data 1%nat (str "23456*XX*LK,0,0,95]tail")].
(** * Properties *)

(** ** Strings: indices and slices *)

Section StringFacts.

Lemma len_app (a b : JsString.t) : len (a ++ b) = len a + len b.
Proof. unfold len. rewrite length_app. lia. Qed.

Lemma len_nonneg (a : JsString.t) : 0 <= len a.
Proof. unfold len. lia. Qed.

Lemma len_cons (c : ascii) (a : JsString.t) : len (c :: a) = 1 + len a.
Proof. unfold len. simpl length. lia. Qed.

Lemma skipn_len_app (a b : JsString.t) : skipn (Z.to_nat (len a)) (a ++ b) = b.
Proof.
  unfold len. rewrite Nat2Z.id.
  induction a as [|x a IH]; simpl; auto.
Qed.

Lemma indexOfAux_range c s i :
  indexOfAux c s i = -1 \/ (i <= indexOfAux c s i < i + len s).
Proof.
  revert i. induction s as [|x s IH]; intros i; simpl.
  - now left.
  - rewrite len_cons. pose proof (len_nonneg s).
    destruct (Ascii.eqb x c).
    + right. lia.
    + destruct (IH (i + 1)) as [H1|H1]; [now left|right; lia].
Qed.

Lemma indexOfAux_shift c s i k :
  0 <= i -> indexOfAux c s (i + k) = shift k (indexOfAux c s i).
Proof.
  revert i. induction s as [|x s IH]; intros i Hi; simpl.
  - reflexivity.
  - destruct (Ascii.eqb x c).
    + unfold shift. destruct (Z.eqb_spec i (-1)); lia.
    + replace (i + k + 1) with (i + 1 + k) by lia. apply IH. lia.
Qed.

Lemma indexOfAux_notin c p r i :
  ~ In c p -> indexOfAux c (p ++ r) i = indexOfAux c r (i + len p).
Proof.
  revert i. induction p as [|x p IH]; intros i Hn; simpl.
  - f_equal. unfold len. simpl. lia.
  - destruct (Ascii.eqb_spec x c) as [->|Hx].
    + exfalso. apply Hn. now left.
    + rewrite IH by (intros H; apply Hn; now right).
      f_equal. rewrite len_cons. lia.
Qed.

Lemma indexOfAux_none c s i : ~ In c s -> indexOfAux c s i = -1.
Proof.
  intros Hn. rewrite <- (app_nil_r s), indexOfAux_notin by assumption. reflexivity.
Qed.

Lemma indexOfAux_hit c r i : indexOfAux c (c :: r) i = i.
Proof. simpl. now rewrite Ascii.eqb_refl. Qed.

Lemma indexOf_range s c pos :
  indexOf s c pos = -1 \/ (0 <= indexOf s c pos /\ pos <= indexOf s c pos < len s).
Proof.
  unfold indexOf.
  set (k := Z.min (Z.max pos 0) (len s)).
  pose proof (len_nonneg s) as Hs.
  destruct (indexOfAux_range c (skipn (Z.to_nat k) s) k) as [H|H]; [now left|right].
  assert (len (skipn (Z.to_nat k) s) = len s - k).
  { unfold len. rewrite length_skipn. unfold len in *. lia. }
  lia.
Qed.

Lemma indexOf_past s c pos : len s <= pos -> indexOf s c pos = -1.
Proof.
  intros H. destruct (indexOf_range s c pos) as [E|E]; [exact E|lia].
Qed.

Lemma indexOf_none s c pos : ~ In c s -> indexOf s c pos = -1.
Proof.
  intros Hn. unfold indexOf. apply indexOfAux_none.
  intros H. apply Hn. rewrite <- (firstn_skipn (Z.to_nat (Z.min (Z.max pos 0) (len s))) s).
  apply in_or_app. now right.
Qed.

(** Searching behind a prefix is searching the rest. *)
Lemma indexOf_app_r pre rest c pos :
  0 <= pos ->
  indexOf (pre ++ rest) c (len pre + pos) = shift (len pre) (indexOf rest c pos).
Proof.
  intros Hp. unfold indexOf. rewrite len_app.
  pose proof (len_nonneg pre). pose proof (len_nonneg rest).
  set (k := Z.min (Z.max pos 0) (len rest)).
  replace (Z.min (Z.max (len pre + pos) 0) (len pre + len rest)) with (k + len pre) by lia.
  rewrite indexOfAux_shift by lia. f_equal. f_equal.
  replace (Z.to_nat (k + len pre)) with (Z.to_nat k + length pre)%nat by (unfold len; lia).
  rewrite <- skipn_skipn.
  pose proof (skipn_len_app pre rest) as E. unfold len in E. rewrite Nat2Z.id in E.
  now rewrite E.
Qed.

Lemma indexOf_0 s c : indexOf s c 0 = indexOfAux c s 0.
Proof.
  unfold indexOf.
  replace (Z.min (Z.max 0 0) (len s)) with 0 by (pose proof (len_nonneg s); lia).
  reflexivity.
Qed.

(** The first occurrence, searched from the start. *)
Lemma indexOf_first p r c : ~ In c p -> indexOf (p ++ c :: r) c 0 = len p.
Proof.
  intros Hn. rewrite indexOf_0, indexOfAux_notin by assumption.
  now rewrite indexOfAux_hit.
Qed.

Lemma indexOf_skip p r c : ~ In c p -> indexOf (p ++ r) c 0 = shift (len p) (indexOf r c 0).
Proof.
  intros Hn. rewrite !indexOf_0, indexOfAux_notin by assumption.
  apply indexOfAux_shift. lia.
Qed.

Lemma relIndex_nonneg n i : 0 <= i -> relIndex n i = Z.min i n.
Proof. intros H. unfold relIndex. destruct (Z.ltb_spec i 0); lia. Qed.

Lemma slice_app_r pre rest a b :
  0 <= a -> 0 <= b -> slice (pre ++ rest) (len pre + a) (len pre + b) = slice rest a b.
Proof.
  intros Ha Hb. unfold slice. rewrite len_app.
  pose proof (len_nonneg pre). pose proof (len_nonneg rest).
  rewrite !relIndex_nonneg by lia.
  replace (Z.min (len pre + b) (len pre + len rest) - Z.min (len pre + a) (len pre + len rest))
    with (Z.min b (len rest) - Z.min a (len rest)) by lia.
  f_equal.
  replace (Z.to_nat (Z.min (len pre + a) (len pre + len rest)))
    with (Z.to_nat (Z.min a (len rest)) + length pre)%nat by (unfold len in *; lia).
  rewrite <- skipn_skipn.
  pose proof (skipn_len_app pre rest) as E. unfold len in E. rewrite Nat2Z.id in E.
  now rewrite E.
Qed.

Lemma slice_prefix s r : slice (s ++ r) 0 (len s) = s.
Proof.
  unfold slice. rewrite len_app.
  pose proof (len_nonneg s). pose proof (len_nonneg r).
  rewrite !relIndex_nonneg by lia.
  replace (Z.min (len s) (len s + len r)) with (len s) by lia.
  replace (Z.min 0 (len s + len r)) with 0 by lia.
  rewrite Z.sub_0_r. change (Z.to_nat 0) with 0%nat. unfold len. rewrite Nat2Z.id.
  rewrite skipn_O, firstn_app, Nat.sub_diag, firstn_all. simpl. apply app_nil_r.
Qed.

Lemma sliceFrom_app pre rest : sliceFrom (pre ++ rest) (len pre) = rest.
Proof.
  unfold sliceFrom. rewrite len_app.
  pose proof (len_nonneg rest).
  replace (len pre) with (len pre + 0) at 1 by lia.
  rewrite slice_app_r by lia.
  rewrite <- (app_nil_r rest) at 1. apply slice_prefix.
Qed.

Lemma lastIndexOfAux_notin c s i acc : ~ In c s -> lastIndexOfAux c s i acc = acc.
Proof.
  revert i acc. induction s as [|x s IH]; intros i acc Hn; simpl; auto.
  destruct (Ascii.eqb_spec x c) as [->|Hx].
  - exfalso. apply Hn. now left.
  - apply IH. intros H. apply Hn. now right.
Qed.

Lemma lastIndexOfAux_app c p r i acc :
  lastIndexOfAux c (p ++ r) i acc = lastIndexOfAux c r (i + len p) (lastIndexOfAux c p i acc).
Proof.
  revert i acc. induction p as [|x p IH]; intros i acc; simpl.
  - f_equal. unfold len. simpl. lia.
  - rewrite IH. f_equal. rewrite len_cons. lia.
Qed.

Lemma lastIndexOf_none s c : ~ In c s -> lastIndexOf s c = -1.
Proof. intros H. unfold lastIndexOf. now apply lastIndexOfAux_notin. Qed.

Lemma lastIndexOf_last p r c : ~ In c r -> lastIndexOf (p ++ c :: r) c = len p.
Proof.
  intros Hn. unfold lastIndexOf. rewrite lastIndexOfAux_app. simpl.
  rewrite Ascii.eqb_refl, lastIndexOfAux_notin by assumption. lia.
Qed.

(** A character that occurs has a first and a last occurrence. *)
Lemma first_split (c : ascii) (s : JsString.t) :
  In c s -> exists p r, s = p ++ c :: r /\ ~ In c p.
Proof.
  induction s as [|x s IH]; intros H; [destruct H|].
  destruct (ascii_dec x c) as [->|Hx].
  - exists [], s. split; auto.
  - destruct H as [H|H]; [contradiction|].
    destruct (IH H) as (p & r & -> & Hp).
    exists (x :: p), r. split; auto.
    intros [E|E]; [contradiction|auto].
Qed.

Lemma last_split (c : ascii) (s : JsString.t) :
  In c s -> exists p r, s = p ++ c :: r /\ ~ In c r.
Proof.
  intros H. apply in_rev in H.
  destruct (first_split c (rev s) H) as (p & r & E & Hp).
  exists (rev r), (rev p). split.
  - rewrite <- (rev_involutive s), E, rev_app_distr. simpl. now rewrite <- app_assoc.
  - intros Hi. apply Hp. now apply in_rev.
Qed.

(** Induction over the pieces a separator cuts a string into: the
    strings without [c], and [p ++ c :: r] for [p] without [c]. *)
Lemma sep_ind (c : ascii) (P : list ascii -> Prop) :
  (forall s, ~ In c s -> P s) ->
  (forall p r, ~ In c p -> P r -> P (p ++ c :: r)) ->
  forall s : list ascii, P s.
Proof.
  intros Hbase Hstep s.
  remember (length s) as n eqn:En. revert s En.
  induction n as [n IH] using lt_wf_ind. intros s En.
  destruct (in_dec ascii_dec c s) as [Hi|Hn]; [|now apply Hbase].
  destruct (first_split _ _ Hi) as (p & r & -> & Hp).
  apply Hstep; [assumption|].
  apply (IH (length r)); [|reflexivity].
  subst n. rewrite length_app. simpl. lia.
Qed.

End StringFacts.

(** ** Frame extractor *)

Section ExtractFrames.

Lemma shift_cases k x :
  x = -1 \/ 0 <= x -> (x = -1 /\ shift k x = -1) \/ (0 <= x /\ shift k x = x + k).
Proof.
  intros [->|H]; [left; auto|right]. split; auto.
  unfold shift. destruct (Z.eqb_spec x (-1)); lia.
Qed.

Lemma indexOf_cases s c pos :
  indexOf s c pos = -1 \/ 0 <= indexOf s c pos.
Proof. destruct (indexOf_range s c pos) as [H|H]; [now left|right; lia]. Qed.

Lemma extractLoop_acc fuel buf start acc :
  extractLoop fuel buf start acc = acc ++ extractLoop fuel buf start [].
Proof.
  revert start acc. induction fuel as [|fuel IH]; intros start acc; simpl.
  - now rewrite app_nil_r.
  - destruct (start =? -1); [now rewrite app_nil_r|].
    destruct (indexOf buf "]" (start + 1) =? -1); [now rewrite app_nil_r|].
    rewrite IH. rewrite (IH _ [_]). now rewrite <- app_assoc.
Qed.

(** The fuel is never what stops the loop: from a fuel of the length of
    the buffer behind [start] on, more fuel changes nothing. *)
Lemma extractLoop_fuel n m buf start acc :
  start = -1 \/ (0 <= start /\ len buf - start <= Z.of_nat n /\ len buf - start <= Z.of_nat m) ->
  extractLoop n buf start acc = extractLoop m buf start acc.
Proof.
  revert m start acc. induction n as [|n IH]; intros m start acc H.
  - destruct H as [->|(H0 & Hn & Hm)].
    + destruct m; reflexivity.
    + destruct m as [|m]; [reflexivity|]. simpl.
      destruct (Z.eqb_spec start (-1)); [reflexivity|].
      rewrite indexOf_past by lia. reflexivity.
  - destruct m as [|m].
    + destruct H as [->|(H0 & Hn & Hm)]; [reflexivity|]. simpl.
      destruct (Z.eqb_spec start (-1)); [reflexivity|].
      rewrite indexOf_past by lia. reflexivity.
    + simpl. destruct (Z.eqb_spec start (-1)); [reflexivity|].
      destruct H as [->|(H0 & Hn & Hm)]; [contradiction|].
      destruct (indexOf_range buf "]" (start + 1)) as [E|E].
      * rewrite E. reflexivity.
      * destruct (Z.eqb_spec (indexOf buf "]" (start + 1)) (-1)); [reflexivity|].
        apply IH.
        destruct (indexOf_range buf "[" (indexOf buf "]" (start + 1) + 1)) as [F|F];
          [now left|right; lia].
Qed.

(** The loop only looks at the buffer from [start] on. *)
Lemma extractLoop_app_r fuel pre rest start acc :
  start = -1 \/ 0 <= start ->
  extractLoop fuel (pre ++ rest) (shift (len pre) start) acc
  = extractLoop fuel rest start acc.
Proof.
  revert start acc. induction fuel as [|fuel IH]; intros start acc H; [reflexivity|].
  simpl. destruct (shift_cases (len pre) start H) as [[-> ->]|[H0 ->]]; [reflexivity|].
  pose proof (len_nonneg pre).
  destruct (Z.eqb_spec (start + len pre) (-1)); [lia|].
  destruct (Z.eqb_spec start (-1)); [lia|].
  replace (start + len pre + 1) with (len pre + (start + 1)) by lia.
  rewrite indexOf_app_r by lia.
  destruct (shift_cases (len pre) _ (indexOf_cases rest "]" (start + 1))) as [[E ->]|[E ->]].
  - rewrite E. reflexivity.
  - destruct (Z.eqb_spec (indexOf rest "]" (start + 1) + len pre) (-1)); [lia|].
    destruct (Z.eqb_spec (indexOf rest "]" (start + 1)) (-1)); [lia|].
    replace (indexOf rest "]" (start + 1) + len pre + 1)
      with (len pre + (indexOf rest "]" (start + 1) + 1)) by lia.
    rewrite indexOf_app_r by lia.
    replace (start + len pre) with (len pre + start) by lia.
    rewrite slice_app_r by lia.
    apply IH. apply indexOf_cases.
Qed.

Lemma extractLoop_step fuel buf start acc e :
  start <> -1 -> indexOf buf "]" (start + 1) = e -> e <> -1 ->
  extractLoop (S fuel) buf start acc
  = extractLoop fuel buf (indexOf buf "[" (e + 1)) (acc ++ [slice buf start (e + 1)]).
Proof.
  intros Hs <- He. simpl.
  destruct (Z.eqb_spec start (-1)); [contradiction|].
  destruct (Z.eqb_spec (indexOf buf "]" (start + 1)) (-1)); [contradiction|].
  reflexivity.
Qed.

Lemma frames_unfold buf :
  frames (extractFrames buf) = extractLoop (length buf) buf (indexOf buf "[" 0) [].
Proof. reflexivity. Qed.

(** A prefix without opening bracket has no part in the frames. *)
Lemma frames_skip p r :
  ~ In "["%char p -> frames (extractFrames (p ++ r)) = frames (extractFrames r).
Proof.
  intros Hn. rewrite !frames_unfold, indexOf_skip by assumption.
  rewrite extractLoop_app_r by apply indexOf_cases.
  apply extractLoop_fuel.
  destruct (indexOf_range r "[" 0) as [E|E]; [now left|right].
  rewrite length_app. unfold len in *. lia.
Qed.

(** From the fuel [extractFrames] gives on, the loop gives its frames. *)
Lemma extractFrames_fuel buf n :
  (length buf <= n)%nat ->
  extractLoop n buf (indexOf buf "[" 0) [] = frames (extractFrames buf).
Proof.
  intros Hn. rewrite frames_unfold. apply extractLoop_fuel.
  destruct (indexOf_range buf "[" 0) as [E|E]; [now left|right].
  unfold len in *. lia.
Qed.

Lemma frames_no_close s :
  ~ In "]"%char s -> frames (extractFrames s) = [].
Proof.
  intros Hn. rewrite frames_unfold.
  destruct (length s) as [|n]; [reflexivity|]. simpl.
  destruct (indexOf s "[" 0 =? -1); [reflexivity|].
  rewrite indexOf_none by assumption. reflexivity.
Qed.

Lemma fromOpen_none p : fromOpen p = None -> ~ In "["%char p.
Proof.
  induction p as [|x p IH]; simpl; intros H; [tauto|].
  destruct (Ascii.eqb_spec x "["); [discriminate|].
  intros [E|E]; [contradiction|]. now apply IH.
Qed.

Lemma fromOpen_some p f :
  fromOpen p = Some f -> exists q t, p = q ++ "["%char :: t /\ f = "["%char :: t /\ ~ In "["%char q.
Proof.
  induction p as [|x p IH]; simpl; intros H; [discriminate|].
  destruct (Ascii.eqb_spec x "[") as [->|Hx].
  - injection H as <-. exists [], p. auto.
  - destruct (IH H) as (q & t & -> & -> & Hq).
    exists (x :: q), t. split; [reflexivity|]. split; [reflexivity|].
    intros [E|E]; [contradiction|auto].
Qed.

(** Up to the first closing bracket: one frame if an opening bracket
    comes before it, and the scan goes on behind it. *)
Lemma frames_first_close p r :
  ~ In "]"%char p ->
  frames (extractFrames (p ++ "]"%char :: r)) = closedFrame p ++ frames (extractFrames r).
Proof.
  intros Hn. unfold closedFrame. destruct (fromOpen p) as [f|] eqn:Ef.
  - destruct (fromOpen_some p f Ef) as (q & t & -> & -> & Hq).
    assert (Ht : ~ In "]"%char t).
    { intros H. apply Hn. apply in_or_app. right. now right. }
    rewrite <- app_assoc. simpl app.
    rewrite frames_unfold.
    rewrite indexOf_first by assumption.
    pose proof (len_nonneg q) as Hq0. pose proof (len_nonneg t) as Ht0.
    pose proof (len_nonneg r) as Hr0.
    assert (Hlen : length (q ++ "["%char :: t ++ "]"%char :: r)
                   = S (S (length q + length t + length r))).
    { rewrite length_app. simpl. rewrite length_app. simpl. lia. }
    assert (Eend : indexOf (q ++ "["%char :: t ++ "]"%char :: r) "]" (len q + 1)
                   = len q + 1 + len t).
    { change (q ++ "["%char :: t ++ "]"%char :: r) with (q ++ ["["%char] ++ t ++ "]"%char :: r).
      rewrite app_assoc.
      replace (len q + 1) with (len (q ++ ["["%char]) + 0) by (rewrite len_app; unfold len; simpl; lia).
      rewrite indexOf_app_r by lia.
      rewrite indexOf_first by assumption.
      unfold shift. destruct (Z.eqb_spec (len t) (-1)); [lia|].
      rewrite len_app. unfold len. simpl. lia. }
    rewrite Hlen.
    rewrite (extractLoop_step _ _ (len q) _ (len q + 1 + len t)) by (lia || exact Eend).
    assert (Es : slice (q ++ "["%char :: t ++ "]"%char :: r) (len q) (len q + 1 + len t + 1)
                 = ("["%char :: t) ++ ["]"%char]).
    { transitivity (slice (q ++ "["%char :: t ++ "]"%char :: r) (len q + 0) (len q + (len t + 2))).
      { f_equal; lia. }
      rewrite slice_app_r by lia.
      change ("["%char :: t ++ "]"%char :: r) with (("["%char :: t) ++ "]"%char :: r).
      replace (("["%char :: t) ++ "]"%char :: r) with ((("["%char :: t) ++ ["]"%char]) ++ r)
        by (now rewrite <- app_assoc).
      replace (len t + 2) with (len (("["%char :: t) ++ ["]"%char]))
        by (rewrite len_app, len_cons; unfold len; simpl; lia).
      apply slice_prefix. }
    rewrite Es, extractLoop_acc. change ([] ++ ?x) with x. cbn [app]. f_equal.
    replace (q ++ "["%char :: t ++ "]"%char :: r)
      with ((q ++ "["%char :: t ++ ["]"%char]) ++ r)
      by (rewrite <- !app_assoc; simpl; now rewrite <- app_assoc).
    replace (len q + 1 + len t + 1) with (len (q ++ "["%char :: t ++ ["]"%char]) + 0)
      by (rewrite len_app, len_cons, len_app; unfold len; simpl; lia).
    rewrite indexOf_app_r by lia.
    rewrite extractLoop_app_r by apply indexOf_cases.
    apply extractLoop_fuel.
    destruct (indexOf_range r "[" 0) as [E|E]; [now left|right].
    unfold len in *. lia.
  - simpl app.
    replace (p ++ "]"%char :: r) with ((p ++ ["]"%char]) ++ r) by (now rewrite <- app_assoc).
    apply frames_skip.
    intros H. apply in_app_or in H. destruct H as [H|H].
    + now apply (fromOpen_none p Ef).
    + destruct H as [H|[]]. discriminate.
Qed.

End ExtractFrames.

Section Remainder.

Lemma remainder_no_close s : ~ In "]"%char s -> remainder (extractFrames s) = s.
Proof.
  intros Hn. unfold extractFrames. simpl. now rewrite lastIndexOf_none.
Qed.

Lemma remainder_last_close p r :
  ~ In "]"%char r -> remainder (extractFrames (p ++ "]"%char :: r)) = r.
Proof.
  intros Hn. unfold extractFrames. simpl. rewrite lastIndexOf_last by assumption.
  pose proof (len_nonneg p).
  destruct (Z.eqb_spec (len p) (-1)); [lia|].
  replace (p ++ "]"%char :: r) with ((p ++ ["]"%char]) ++ r) by (now rewrite <- app_assoc).
  replace (len p + 1) with (len (p ++ ["]"%char])) by (rewrite len_app; unfold len; simpl; lia).
  apply sliceFrom_app.
Qed.

(** The remainder is the part of the buffer behind its last closing
    bracket. *)
Lemma remainder_spec s :
  exists pre, s = pre ++ remainder (extractFrames s) /\ Closed pre
              /\ ~ In "]"%char (remainder (extractFrames s)).
Proof.
  destruct (in_dec ascii_dec "]"%char s) as [Hi|Hn].
  - destruct (last_split _ _ Hi) as (p & r & -> & Hr).
    rewrite remainder_last_close by assumption.
    exists (p ++ ["]"%char]). split; [now rewrite <- app_assoc|].
    split; [right; now exists p|assumption].
  - rewrite remainder_no_close by assumption.
    exists []. split; [reflexivity|]. split; [now left|assumption].
Qed.

(** This determines it. *)
Lemma closed_split_unique a x b y :
  a ++ x = b ++ y -> Closed a -> Closed b ->
  ~ In "]"%char x -> ~ In "]"%char y -> x = y.
Proof.
  intros E Ha Hb Hx Hy.
  assert (Haux : forall (a x b y : JsString.t) l, a = b ++ l -> y = l ++ x -> Closed a ->
                 ~ In "]"%char y -> x = y).
  { clear. intros a x b y l -> -> Ha Hy.
    destruct l as [|c l]; [reflexivity|]. exfalso.
    destruct Ha as [Ha|[q Ha]].
    - destruct b; discriminate.
    - assert (Hl : exists l', c :: l = l' ++ ["]"%char]).
      { destruct (exists_last (l := c :: l) ltac:(discriminate)) as (l' & z & El).
        rewrite El in Ha. rewrite app_assoc in Ha.
        apply app_inj_tail in Ha. destruct Ha as [_ ->]. now exists l'. }
      destruct Hl as [l' El]. apply Hy. rewrite El.
      apply in_or_app. left. apply in_or_app. right. now left. }
  apply app_eq_app in E. destruct E as [l [[E1 E2]|[E1 E2]]].
  - now apply (Haux a x b y l).
  - symmetry. now apply (Haux b y a x l).
Qed.

Lemma remainder_unique s pre x :
  s = pre ++ x -> Closed pre -> ~ In "]"%char x -> remainder (extractFrames s) = x.
Proof.
  intros E Hp Hx. destruct (remainder_spec s) as (pre' & E' & Hp' & Hx').
  rewrite E in E' at 1.
  symmetry. exact (closed_split_unique _ _ _ _ E' Hp Hp' Hx Hx').
Qed.

Lemma closed_app a b : Closed a -> Closed b -> Closed (a ++ b).
Proof.
  intros Ha [->|[q ->]].
  - now rewrite app_nil_r.
  - right. exists (a ++ q). now rewrite app_assoc.
Qed.

(** What is kept of [a] is all the scan of [a ++ b] still needs of it. *)
Lemma remainder_app a b :
  remainder (extractFrames (a ++ b))
  = remainder (extractFrames (remainder (extractFrames a) ++ b)).
Proof.
  destruct (remainder_spec a) as (pa & Ea & Hpa & _).
  destruct (remainder_spec (remainder (extractFrames a) ++ b)) as (pb & Eb & Hpb & Hx).
  apply (remainder_unique _ (pa ++ pb)).
  - rewrite <- app_assoc, <- Eb, app_assoc, <- Ea. reflexivity.
  - now apply closed_app.
  - assumption.
Qed.

Lemma remainder_first_close p r :
  remainder (extractFrames (p ++ "]"%char :: r)) = remainder (extractFrames r).
Proof.
  replace (p ++ "]"%char :: r) with ((p ++ ["]"%char]) ++ r) by (now rewrite <- app_assoc).
  rewrite remainder_app.
  rewrite (remainder_unique (p ++ ["]"%char]) (p ++ ["]"%char]) []).
  - reflexivity.
  - now rewrite app_nil_r.
  - right. now exists p.
  - intros [].
Qed.

Lemma frames_app a b :
  frames (extractFrames (a ++ b))
  = frames (extractFrames a) ++ frames (extractFrames (remainder (extractFrames a) ++ b)).
Proof.
  induction a as [a Hn|p r Hp IH] using (sep_ind "]").
  - rewrite (frames_no_close a), (remainder_no_close a) by assumption. reflexivity.
  - rewrite <- app_assoc, <- app_comm_cons.
    rewrite !frames_first_close by assumption.
    now rewrite remainder_first_close, <- app_assoc, IH.
Qed.

End Remainder.

Section Chunks.

Lemma remainder_closed_free s : ~ In "]"%char (remainder (extractFrames s)).
Proof. destruct (remainder_spec s) as (pre & _ & _ & H). exact H. Qed.

(** A connection whose buffer holds no closing bracket (it never does)
    hands out the frames of the concatenation of its chunks. *)
Lemma framesOfChunks_concat buffer chunks :
  ~ In "]"%char buffer ->
  framesOfChunks buffer chunks = frames (extractFrames (buffer ++ concat chunks))
  /\ bufferAfter buffer chunks = remainder (extractFrames (buffer ++ concat chunks)).
Proof.
  revert buffer. induction chunks as [|c cs IH]; intros buffer Hb.
  - cbn [framesOfChunks bufferAfter concat].
    rewrite app_nil_r, frames_no_close, remainder_no_close by assumption. auto.
  - destruct (IH (remainder (extractFrames (buffer ++ c))) (remainder_closed_free _))
      as [IH1 IH2].
    cbn [framesOfChunks bufferAfter concat].
    rewrite IH1, IH2, (app_assoc buffer c), <- frames_app, <- remainder_app. auto.
Qed.

Lemma processFrames_const cfg now i j fs w :
  processFrames cfg (fun _ => now) i fs w = processFrames cfg (fun _ => now) j fs w.
Proof.
  revert i j w. induction fs as [|f fs IH]; intros i j w; simpl; auto.
Qed.

Lemma processFrames_app cfg now i fs gs w :
  processFrames cfg (fun _ => now) i (fs ++ gs) w
  = processFrames cfg (fun _ => now) i gs (processFrames cfg (fun _ => now) i fs w).
Proof.
  revert i w. induction fs as [|f fs IH]; intros i w; simpl; auto.
  rewrite IH. apply processFrames_const.
Qed.

(** The handler run over the chunks, in terms of the frames handed out. *)
Lemma onChunks_frames cfg now chunks buffer w :
  onChunks cfg (fun _ => now) chunks (buffer, w)
  = (bufferAfter buffer chunks,
     processFrames cfg (fun _ => now) 0 (framesOfChunks buffer chunks) w).
Proof.
  revert buffer w. induction chunks as [|c cs IH]; intros buffer w;
    cbn [onChunks bufferAfter framesOfChunks processFrames]; auto.
  unfold onData. cbn [fst snd]. rewrite IH, processFrames_app. reflexivity.
Qed.

End Chunks.

Section Shape.

Lemma InOrder_prefix pre fs s : InOrder fs s -> InOrder fs (pre ++ s).
Proof.
  intros H. destruct H as [s|gap f fs rest H].
  - constructor.
  - rewrite app_assoc. now constructor.
Qed.

Lemma closedFrame_shape p r :
  ~ In "]"%char p ->
  Forall WellFramed (closedFrame p)
  /\ forall fs, InOrder fs r -> InOrder (closedFrame p ++ fs) (p ++ "]"%char :: r).
Proof.
  intros Hn. unfold closedFrame. destruct (fromOpen p) as [f|] eqn:Ef.
  - destruct (fromOpen_some p f Ef) as (q & t & -> & -> & Hq). split.
    + constructor; [|constructor]. exists t. split; [reflexivity|].
      intros H. apply Hn. apply in_or_app. right. now right.
    + intros fs H.
      replace ((q ++ "["%char :: t) ++ "]"%char :: r)
        with (q ++ (("["%char :: t) ++ ["]"%char]) ++ r)
        by (rewrite <- !app_assoc; reflexivity).
      simpl app at 1. now constructor.
  - split; [constructor|]. intros fs H. simpl.
    replace (p ++ "]"%char :: r) with ((p ++ ["]"%char]) ++ r) by (now rewrite <- app_assoc).
    now apply InOrder_prefix.
Qed.

Lemma frames_shape buf :
  Forall WellFramed (frames (extractFrames buf)) /\ InOrder (frames (extractFrames buf)) buf.
Proof.
  induction buf as [buf Hn|p r Hp [F O]] using (sep_ind "]").
  - rewrite frames_no_close by assumption. split; constructor.
  - rewrite frames_first_close by assumption.
    destruct (closedFrame_shape p r Hp) as [F' O'].
    split; [apply Forall_app; auto|auto].
Qed.

End Shape.

(** ** Numbers *)

Section NumberFacts.

Import JsNumber.

Lemma shr_1_nonneg mrs : 0 <= shr_m mrs -> 0 <= shr_m (shr_1 mrs).
Proof.
  destruct mrs as [m r s]. simpl. intros H.
  destruct m as [|p|p]; [simpl; lia| |lia].
  destruct p; simpl; lia.
Qed.

Lemma iter_shr_1_nonneg p mrs : 0 <= shr_m mrs -> 0 <= shr_m (SpecFloat.iter_pos shr_1 p mrs).
Proof.
  revert mrs. induction p as [p IH|p IH|]; intros mrs H; simpl.
  - apply IH, IH, shr_1_nonneg, H.
  - apply IH, IH, H.
  - apply shr_1_nonneg, H.
Qed.

Lemma shr_record_of_loc_m m l : shr_m (shr_record_of_loc m l) = m.
Proof. destruct l as [|[]]; reflexivity. Qed.

Lemma shr_fexp_nonneg m e l : 0 <= m -> 0 <= shr_m (fst (shr_fexp prec emax m e l)).
Proof.
  intros H. unfold shr_fexp, shr.
  destruct (fexp prec emax (Zdigits2 m + e) - e) as [|p|p]; simpl;
    try (rewrite shr_record_of_loc_m; exact H).
  apply iter_shr_1_nonneg. now rewrite shr_record_of_loc_m.
Qed.

Lemma round_nearest_even_nonneg m l : 0 <= m -> 0 <= round_nearest_even m l.
Proof.
  intros H. unfold round_nearest_even.
  destruct l as [|[]]; try lia. destruct (Z.even m); lia.
Qed.

(** Rounding a magnitude never gives [NaN]. *)
Lemma binary_round_aux_not_nan sx mx ex lx :
  0 <= mx -> isNaN (binary_round_aux prec emax sx mx ex lx) = false.
Proof.
  intros H. unfold binary_round_aux.
  pose proof (shr_fexp_nonneg mx ex lx H) as H1.
  destruct (shr_fexp prec emax mx ex lx) as [mrs' e']. simpl in H1.
  pose proof (shr_fexp_nonneg _ e' loc_Exact
                (round_nearest_even_nonneg _ (loc_of_shr_record mrs') H1)) as H2.
  destruct (shr_fexp prec emax _ e' loc_Exact) as [mrs'' e'']. simpl in H2.
  destruct (shr_m mrs'') as [|p|p]; [reflexivity| |lia].
  destruct (e'' <=? emax - prec); reflexivity.
Qed.

Lemma binary_normalize_not_nan m e s : isNaN (binary_normalize prec emax m e s) = false.
Proof.
  unfold binary_normalize, binary_round.
  destruct m as [|p|p]; [reflexivity| |].
  - destruct (shl_align p e _) as [mz ez]. apply binary_round_aux_not_nan. lia.
  - destruct (shl_align p e _) as [mz ez]. apply binary_round_aux_not_nan. lia.
Qed.

Lemma ofZ_not_nan z : isNaN (ofZ z) = false.
Proof. apply binary_normalize_not_nan. Qed.

Lemma ofDecimal_not_nan m e : isNaN (ofDecimal m e) = false.
Proof.
  unfold ofDecimal. destruct m as [|p|p]; [reflexivity| |reflexivity].
  destruct (0 <=? e); [apply binary_normalize_not_nan|].
  unfold SFdiv, SFdiv_core_binary.
  set (e' := Z.min _ _). set (m' := match 0 - 0 - e' with Z0 => _ | Zpos _ => _ | Zneg _ => _ end).
  assert (Hm : 0 <= m').
  { subst m'. destruct (0 - 0 - e'); try lia. apply Z.shiftl_nonneg. lia. }
  pose proof (Z.div_eucl_eq m' (Z.pos (Z.to_pos (10 ^ (- e)))) ltac:(lia)) as E.
  pose proof (Z_div_mod m' (Z.pos (Z.to_pos (10 ^ (- e)))) ltac:(lia)) as B.
  destruct (Z.div_eucl m' (Z.pos (Z.to_pos (10 ^ (- e))))) as [q r].
  apply binary_round_aux_not_nan. nia.
Qed.

Lemma neg_not_nan x : isNaN x = false -> isNaN (neg x) = false.
Proof. destruct x; auto. Qed.

Lemma abs_not_nan x : isNaN x = false -> isNaN (abs x) = false.
Proof. destruct x; auto. Qed.

Lemma parseUnsignedDecimal_not_nan s v :
  parseUnsignedDecimal s = Some v -> isNaN v = false.
Proof.
  unfold parseUnsignedDecimal.
  destruct (bool_decide _); [intros [= <-]; reflexivity|].
  destruct (span isDigit s) as [ip r1].
  destruct (match r1 with "."%char :: r => span isDigit r | _ => ([], r1) end) as [fp r2].
  destruct (ip ++ fp); [discriminate|].
  destruct r2 as [|c r3].
  - intros [= <-]. apply ofDecimal_not_nan.
  - destruct (_ || _); [|discriminate].
    destruct (parseExponent r3); [|discriminate].
    intros [= <-]. apply ofDecimal_not_nan.
Qed.

Lemma parseNonDecimal_not_nan s v : parseNonDecimal s = Some v -> isNaN v = false.
Proof.
  unfold parseNonDecimal.
  destruct s as [|c0 [|p [|d ds]]]; try discriminate;
    try (destruct (ascii_dec c0 "0") as [->|Hc]; [discriminate|];
         destruct c0 as [[] [] [] [] [] [] [] []]; discriminate).
  intros H.
  assert (Hv : exists b z, radixVal b (d :: ds) 0 = Some z /\ v = ofZ z).
  { destruct c0 as [[] [] [] [] [] [] [] []]; try discriminate.
    destruct (if Ascii.eqb p "x" || Ascii.eqb p "X" then Some 16
              else if Ascii.eqb p "o" || Ascii.eqb p "O" then Some 8
              else if Ascii.eqb p "b" || Ascii.eqb p "B" then Some 2 else None) as [b|];
      [|discriminate].
    destruct (radixVal b (d :: ds) 0) as [z|] eqn:E; [|discriminate].
    injection H as <-. now exists b, z. }
  destruct Hv as (b & z & _ & ->). apply ofZ_not_nan.
Qed.

(** A numeric literal never reads as [NaN]. *)
Lemma parseNumericLiteral_not_nan s v : parseNumericLiteral s = Some v -> isNaN v = false.
Proof.
  unfold parseNumericLiteral.
  destruct (parseNonDecimal s) as [w|] eqn:E.
  - intros [= <-]. now apply (parseNonDecimal_not_nan s).
  - intros H.
    assert (Hc : (exists u w, parseUnsignedDecimal u = Some w /\ (v = w \/ v = neg w))).
    { destruct s as [|c u].
      - exists [], v. auto.
      - destruct (ascii_dec c "-") as [->|Hm].
        + destruct (parseUnsignedDecimal u) as [w|] eqn:Eu; [|discriminate].
          injection H as <-. exists u, w. auto.
        + destruct (ascii_dec c "+") as [->|Hp].
          * exists u, v. auto.
          * exists (c :: u), v. split; [|auto].
            destruct c as [[] [] [] [] [] [] [] []]; try exact H; congruence. }
    destruct Hc as (u & w & Hu & [->| ->]).
    + now apply (parseUnsignedDecimal_not_nan u).
    + apply neg_not_nan. now apply (parseUnsignedDecimal_not_nan u).
Qed.

(** [Number(v)] is [NaN] exactly when [v] holds something else than
    white space that is not a numeric literal. *)
Lemma ofString_nan v :
  isNaN (ofString v) = true <-> trim v <> [] /\ parseNumericLiteral (trim v) = None.
Proof.
  unfold ofString. destruct (trim v) as [|c body] eqn:E.
  - split; [discriminate|]. intros [H _]. now contradiction H.
  - destruct (parseNumericLiteral (c :: body)) as [w|] eqn:Ew.
    + rewrite (parseNumericLiteral_not_nan _ _ Ew). split; [discriminate|]. intros [_ H]. discriminate.
    + split; [|reflexivity]. intros _. split; [discriminate|reflexivity].
Qed.

End NumberFacts.

(** ** Splitting and joining *)

Section SplitFacts.

Lemma splitAux_notin c a r cur :
  ~ In c a -> splitAux c (a ++ r) cur = splitAux c r (rev a ++ cur).
Proof.
  revert cur. induction a as [|x a IH]; intros cur Hn; [reflexivity|].
  simpl. destruct (Ascii.eqb_spec x c) as [->|Hx].
  - exfalso. apply Hn. now left.
  - rewrite IH by (intros H; apply Hn; now right).
    now rewrite <- app_assoc.
Qed.

Lemma split_cons c a r : ~ In c a -> split (a ++ c :: r) c = a :: split r c.
Proof.
  intros Hn. unfold split. rewrite splitAux_notin by assumption.
  simpl. now rewrite Ascii.eqb_refl, app_nil_r, rev_involutive.
Qed.

Lemma split_single c a : ~ In c a -> split a c = [a].
Proof.
  intros Hn. unfold split. rewrite <- (app_nil_r a) at 1.
  rewrite splitAux_notin by assumption. simpl. now rewrite app_nil_r, rev_involutive.
Qed.

Lemma split_not_nil s c : split s c <> [].
Proof.
  unfold split. generalize (@nil ascii) as cur.
  induction s as [|x s IH]; intros cur; simpl; [discriminate|].
  destruct (Ascii.eqb x c); [discriminate|apply IH].
Qed.

(** Joining pieces that hold no separator and splitting again gives
    the pieces back. *)
Lemma split_join c l :
  l <> [] -> Forall (fun p => ~ In c p) l -> split (join c l) c = l.
Proof.
  induction l as [|a l IH]; intros Hne Hall; [contradiction|].
  inversion Hall as [|? ? Ha Hl]; subst.
  destruct l as [|b l].
  - simpl. now apply split_single.
  - change (join c (a :: b :: l)) with (a ++ c :: join c (b :: l)).
    rewrite split_cons by assumption. f_equal. apply IH; [discriminate|assumption].
Qed.

Lemma join_split c s : join c (split s c) = s.
Proof.
  induction s as [s Hn|p r Hp IH] using (sep_ind c).
  - now rewrite split_single.
  - rewrite split_cons by assumption.
    pose proof (split_not_nil r c) as Hne.
    destruct (split r c) as [|x l] eqn:E; [contradiction|].
    change (join c (p :: x :: l)) with (p ++ c :: join c (x :: l)).
    now rewrite IH.
Qed.

Lemma split_pieces c s : Forall (fun p => ~ In c p) (split s c).
Proof.
  induction s as [s Hn|p r Hp IH] using (sep_ind c).
  - rewrite split_single by assumption. constructor; [assumption|constructor].
  - rewrite split_cons by assumption. now constructor.
Qed.

(** One more piece than separators. *)
Lemma split_length c s : length (split s c) = S (occurrences c s).
Proof.
  unfold split, occurrences. generalize (@nil ascii) as cur.
  induction s as [|x s IH]; intros cur; simpl; [reflexivity|].
  destruct (Ascii.eqb_spec x c) as [->|Hx].
  - destruct (ascii_dec c c); [|contradiction]. simpl. now rewrite IH.
  - destruct (ascii_dec x c); [contradiction|]. apply IH.
Qed.

(** A string with three separators or more has three pieces without
    separator before the third one. *)
Lemma split_three c s :
  (3 <= occurrences c s)%nat ->
  exists p1 p2 p3 rest,
    s = p1 ++ c :: p2 ++ c :: p3 ++ c :: rest
    /\ ~ In c p1 /\ ~ In c p2 /\ ~ In c p3.
Proof.
  intros H. pose proof (split_length c s) as Hl.
  pose proof (split_pieces c s) as Hp. pose proof (join_split c s) as Hj.
  destruct (split s c) as [|p1 [|p2 [|p3 [|p4 l]]]]; simpl in Hl; try lia.
  exists p1, p2, p3, (join c (p4 :: l)). split; [symmetry; exact Hj|].
  apply Forall_cons_iff in Hp. destruct Hp as [H1 Hp].
  apply Forall_cons_iff in Hp. destruct Hp as [H2 Hp].
  apply Forall_cons_iff in Hp. destruct Hp as [H3 Hp].
  auto.
Qed.

(** Every string is its pieces joined. *)
Lemma split_head c s :
  exists p l, s = join c (p :: l) /\ Forall (fun q => ~ In c q) (p :: l).
Proof.
  pose proof (split_not_nil s c) as Hn. pose proof (split_pieces c s) as Hp.
  pose proof (join_split c s) as Hj.
  destruct (split s c) as [|p l]; [contradiction|]. exists p, l. auto.
Qed.

(** Stripping the first and the last character. *)
Lemma slice_strip a b body : slice (a :: body ++ [b]) 1 (-1) = body.
Proof.
  unfold slice. unfold relIndex.
  assert (E : len (a :: body ++ [b]) = len body + 2).
  { rewrite len_cons, len_app. unfold len. simpl. lia. }
  rewrite E. pose proof (len_nonneg body).
  destruct (Z.ltb_spec 1 0); [lia|]. destruct (Z.ltb_spec (-1) 0); [|lia].
  replace (Z.min 1 (len body + 2)) with 1 by lia.
  replace (Z.max (len body + 2 + -1) 0 - 1) with (len body) by lia.
  change (Z.to_nat 1) with 1%nat. unfold len. rewrite Nat2Z.id.
  change (skipn 1 (a :: body ++ [b])) with (body ++ [b]).
  rewrite firstn_app, Nat.sub_diag, firstn_all. simpl. apply app_nil_r.
Qed.

End SplitFacts.

(** ** Decoder facts *)

Section DecoderFacts.

Import JsNumber.

Lemma toISOString_not_empty tv : JsDate.toISOString tv <> [].
Proof.
  unfold JsDate.toISOString.
  destruct (JsDate.civilFromDays _) as [[y m] d].
  destruct (_ && _); [|discriminate].
  destruct (JsDate.pad 4 y); discriminate.
Qed.

Lemma toIso_not_empty dmy hms t : toIso dmy hms = Some t -> t <> [].
Proof.
  unfold toIso. destruct (_ || _); [discriminate|].
  destruct (JsDate.UTC _ _ _ _ _ _); [|discriminate].
  intros [= <-]. apply toISOString_not_empty.
Qed.

(** Anything but exactly six digits is refused. *)
Lemma toIso_malformed dmy hms :
  sixDigits dmy = false \/ sixDigits hms = false -> toIso dmy hms = None.
Proof.
  unfold toIso. intros [-> | ->]; simpl; [reflexivity|].
  now rewrite orb_true_r.
Qed.

Lemma sixDigits_spec s :
  sixDigits s = true <-> length s = 6%nat /\ Forall (fun c => 48 <= code c <= 57) s.
Proof.
  unfold sixDigits, len. rewrite andb_true_iff, Z.eqb_eq, forallb_forall, List.Forall_forall.
  split; intros [H1 H2]; (split; [lia|]); intros c Hc; specialize (H2 c Hc);
    unfold isDigit in *; rewrite ?andb_true_iff, ?Z.leb_le in *; lia.
Qed.

Lemma ofZ_0 : ofZ 0 = S754_zero false.
Proof. reflexivity. Qed.

(** The hemisphere decides the sign, whatever the sign of the
    magnitude. *)
Lemma neg_abs_nonpos n : isNaN n = false -> leb (neg (abs n)) (ofZ 0) = true.
Proof. destruct n as [[]|[]| |[] m e]; intros H; try reflexivity; discriminate. Qed.

Lemma abs_nonneg n : isNaN n = false -> leb (ofZ 0) (abs n) = true.
Proof. destruct n as [[]|[]| |[] m e]; intros H; try reflexivity; discriminate. Qed.

Lemma signedCoord_some v hemi r :
  signedCoord v hemi = Some r ->
  isNaN (ofString v) = false
  /\ r = (if southOrWest hemi then neg (abs (ofString v)) else abs (ofString v)).
Proof.
  unfold signedCoord, southOrWest.
  destruct (isNaN (ofString v)); [discriminate|].
  destruct (_ || _); intros [= <-]; auto.
Qed.

Lemma signedCoord_none v hemi :
  signedCoord v hemi = None <-> isNaN (ofString v) = true.
Proof.
  unfold signedCoord. destruct (isNaN (ofString v)).
  - tauto.
  - destruct (_ || _); split; discriminate.
Qed.

End DecoderFacts.

(** ** Two-digit fields and the range of [Date.UTC] *)

Section DateFacts.

Import JsNumber.

Lemma digit_cases c : isDigit c = true -> In c (str "0123456789").
Proof.
  intros H. destruct c as [[] [] [] [] [] [] [] []];
    try (vm_compute in H; discriminate H);
    simpl; repeat (first [left; reflexivity | right]).
Qed.

Lemma digitChar_isDigit k : 0 <= k <= 9 -> isDigit (digitChar k) = true.
Proof.
  intros H.
  assert (E : k = 0 \/ k = 1 \/ k = 2 \/ k = 3 \/ k = 4 \/ k = 5 \/ k = 6 \/ k = 7 \/ k = 8 \/ k = 9)
    by lia.
  repeat (destruct E as [->|E]; [reflexivity|]). now subst.
Qed.

(** Two digits read as the integer they spell; one less and 2000 more
    are exact. *)
Lemma twoDigits a b :
  isDigit a = true -> isDigit b = true ->
  let n := 10 * digitVal a + digitVal b in
  JsDate.toInteger (ofString [a; b]) = Some n
  /\ JsDate.toInteger (SFsub prec emax (ofString [a; b]) (ofZ 1)) = Some (n - 1)
  /\ JsDate.toInteger (SFadd prec emax (ofString [a; b]) (ofZ 2000)) = Some (n + 2000)
  /\ 0 <= n <= 99.
Proof.
  intros Ha Hb. apply digit_cases in Ha, Hb. simpl in Ha, Hb.
  repeat (destruct Ha as [<-|Ha]; [|]); try contradiction;
    repeat (destruct Hb as [<-|Hb]; [|]); try contradiction;
    vm_compute; repeat split; try reflexivity; discriminate.
Qed.

Lemma sixDigits_inv s :
  sixDigits s = true ->
  exists a b c d e f,
    s = [a; b; c; d; e; f]
    /\ isDigit a = true /\ isDigit b = true /\ isDigit c = true
    /\ isDigit d = true /\ isDigit e = true /\ isDigit f = true.
Proof.
  unfold sixDigits, len. rewrite andb_true_iff, Z.eqb_eq. intros [Hl Hd].
  destruct s as [|a [|b [|c [|d [|e [|f [|g s]]]]]]]; simpl in Hl; try lia.
  simpl in Hd. rewrite !andb_true_iff in Hd.
  exists a, b, c, d, e, f. tauto.
Qed.

Lemma daysBeforeMonth_bound y m : 0 <= JsDate.daysBeforeMonth y m <= 335.
Proof.
  unfold JsDate.daysBeforeMonth. destruct (JsDate.InLeapYear y);
    destruct m as [|p|p]; try lia;
    repeat match goal with
           | |- context [match ?q with xI _ => _ | xO _ => _ | xH => _ end] => destruct q
           end; lia.
Qed.

(** For a year of this century and fields of two digits the time value
    is far inside the range of dates. *)
Lemma TimeClip_fields yr mon d H M S_ :
  2000 <= yr <= 2099 -> -1 <= mon <= 98 ->
  0 <= d <= 99 -> 0 <= H <= 99 -> 0 <= M <= 99 -> 0 <= S_ <= 99 ->
  JsDate.TimeClip (JsDate.MakeDate (JsDate.MakeDay yr mon d) (JsDate.MakeTime H M S_ 0))
  = Some (JsDate.MakeDate (JsDate.MakeDay yr mon d) (JsDate.MakeTime H M S_ 0)).
Proof.
  intros Hy Hm Hd HH HM HS. unfold JsDate.TimeClip.
  set (tv := JsDate.MakeDate _ _).
  destruct (Z.leb_spec (Z.abs tv) 8640000000000000) as [Hle|Hgt]; [reflexivity|exfalso].
  subst tv. unfold JsDate.MakeDate, JsDate.MakeDay, JsDate.MakeTime, JsDate.msPerDay,
    JsDate.DayFromYear in Hgt.
  pose proof (daysBeforeMonth_bound (yr + mon / 12) (mon mod 12)) as Hb.
  set (dbm := JsDate.daysBeforeMonth _ _) in *.
  clearbody dbm. Z.div_mod_to_equations. lia.
Qed.

(** After the test for six digits the guard against [NaN] never fires:
    [toIso] answers a date for every pair of six-digit strings. *)
Lemma toIso_guard_never_fires dmy hms :
  sixDigits dmy = true -> sixDigits hms = true -> exists t, toIso dmy hms = Some t.
Proof.
  intros Hd Hh. unfold toIso. rewrite Hd, Hh. cbn [negb orb].
  destruct (sixDigits_inv _ Hd) as (a & b & c & d & e & f & -> & Ha & Hb & Hc & Hd' & He & Hf).
  destruct (sixDigits_inv _ Hh) as (a' & b' & c' & d' & e' & f' & -> & Ha' & Hb' & Hc' & Hd'' & He' & Hf').
  change (slice [a; b; c; d; e; f] 0 2) with [a; b].
  change (slice [a; b; c; d; e; f] 2 4) with [c; d].
  change (slice [a; b; c; d; e; f] 4 6) with [e; f].
  change (slice [a'; b'; c'; d'; e'; f'] 0 2) with [a'; b'].
  change (slice [a'; b'; c'; d'; e'; f'] 2 4) with [c'; d'].
  change (slice [a'; b'; c'; d'; e'; f'] 4 6) with [e'; f'].
  destruct (twoDigits a b Ha Hb) as (E1 & _ & _ & B1).
  destruct (twoDigits c d Hc Hd') as (_ & E2 & _ & B2).
  destruct (twoDigits e f He Hf) as (_ & _ & E3 & B3).
  destruct (twoDigits a' b' Ha' Hb') as (E4 & _ & _ & B4).
  destruct (twoDigits c' d' Hc' Hd'') as (E5 & _ & _ & B5).
  destruct (twoDigits e' f' He' Hf') as (E6 & _ & _ & B6).
  unfold JsDate.UTC. rewrite E1, E2, E3, E4, E5, E6.
  destruct ((0 <=? 10 * digitVal e + digitVal f + 2000)
            && (10 * digitVal e + digitVal f + 2000 <=? 99)) eqn:Ey.
  { apply andb_true_iff in Ey. rewrite !Z.leb_le in Ey. lia. }
  rewrite TimeClip_fields by lia. eexists. reflexivity.
Qed.

(** Below [10 ^ 21] [toFixed(2)] prints two decimals. *)
Lemma toFixed2_two_decimals s m e :
  fst (fraction m e) < 10 ^ 21 * snd (fraction m e) ->
  exists ip d1 d0,
    toFixed2 (S754_finite s m e) = ip ++ "."%char :: [d1; d0]
    /\ isDigit d1 = true /\ isDigit d0 = true.
Proof.
  intros H. unfold toFixed2. destruct (fraction m e) as [num den]. cbn [fst snd] in H.
  destruct (Z.leb_spec (10 ^ 21 * den) num) as [Hge|Hlt]; [lia|].
  eexists _, _, _. split; [rewrite app_assoc; reflexivity|].
  split; apply digitChar_isDigit.
  - pose proof (Z.mod_pos_bound ((200 * num + den) / (2 * den) / 10) 10 ltac:(lia)). lia.
  - pose proof (Z.mod_pos_bound ((200 * num + den) / (2 * den)) 10 ltac:(lia)). lia.
Qed.

End DateFacts.

(** ** The models of the built-ins at known values *)

Section BuiltinExamples.

Import JsNumber.

Example ofString_examples :
  map (fun s => ofString (str s))
    ["0.1"; "  12 "; "0x1F"; "-0"; ""; "1e400"; "5e-324"; "9007199254740993"; "12abc"; "."; "-Infinity"]%string
  = [S754_finite false 7205759403792794 (-56); ofZ 12; ofZ 31; S754_zero true; S754_zero false;
     S754_infinity false; S754_finite false 1 (-1074); ofZ 9007199254740992; S754_nan; S754_nan;
     S754_infinity true].
Proof. vm_compute. reflexivity. Qed.

Example toString_examples :
  map (fun s => toString (ofString (str s)))
    ["0.1"; "22.5"; "114.1"; "-0"; "abc"; "1e21"; "1e20"; "0.000001"; "1e-7";
     "9.999999999999999e22"; "0.30000000000000004"; "1.7976931348623157e308"; "5e-324"]%string
  = map str
    ["0.1"; "22.5"; "114.1"; "0"; "NaN"; "1e+21"; "100000000000000000000"; "0.000001"; "1e-7";
     "1e+23"; "0.30000000000000004"; "1.7976931348623157e+308"; "5e-324"]%string.
Proof. vm_compute. reflexivity. Qed.

(** Between two digit strings of the same length that are equally
    near, the even one is printed: [64 + 3 / 2 ^ 15] and
    [64 + 1 / 2 ^ 15] lie halfway between their neighbours of sixteen
    digits. *)
Example toString_ties :
  map (fun s => toString (ofString (str s)))
    ["64.000091552734375"; "64.000030517578125"]%string
  = map str ["64.00009155273438"; "64.00003051757812"]%string.
Proof. vm_compute. reflexivity. Qed.

Example toFixed2_examples :
  map (fun s => toFixed2 (ofString (str s)))
    ["0"; "1.005"; "1.255"; "8.345"; "0.005"; "-0.001"; "999.995"; "123456.789"; "1e21"; "abc"]%string
  = map str
    ["0.00"; "1.00"; "1.25"; "8.35"; "0.01"; "-0.00"; "1000.00"; "123456.79"; "1e+21"; "NaN"]%string.
Proof. vm_compute. reflexivity. Qed.

Example toISOString_examples :
  map JsDate.toISOString
    [0; -1; 951782400000; 1709164800000; 8640000000000000; -62198755200000]
  = map str
    ["1970-01-01T00:00:00.000Z"; "1969-12-31T23:59:59.999Z"; "2000-02-29T00:00:00.000Z";
     "2024-02-29T00:00:00.000Z"; "+275760-09-13T00:00:00.000Z";
     "-000001-01-01T00:00:00.000Z"]%string.
Proof. vm_compute. reflexivity. Qed.

Example kphToKnots_example :
  toFixed2 (kphToKnots (ofZ 36)) = str "19.44".
Proof. vm_compute. reflexivity. Qed.

Example extractFrames_example :
  extractFrames (str "x][a]b[c[d]e]f[g")
  = {| frames := [str "[a]"; str "[c[d]"]; remainder := str "f[g" |}.
Proof. vm_compute. reflexivity. Qed.

End BuiltinExamples.

(** ** The claims on the frame extractor *)

(** C10. For every buffer, each frame of [extractFrames] begins with an
    opening bracket, ends with a closing bracket and has no closing
    bracket before its last character; the frames occur in the buffer
    one after the other in the order they are emitted; the remainder is
    a suffix of the buffer without closing bracket, and it is the whole
    buffer exactly when the buffer has no closing bracket. *)
Theorem extractFrames_invariant (buf : JsString.t) :
  Forall WellFramed (frames (extractFrames buf))
  /\ InOrder (frames (extractFrames buf)) buf
  /\ (exists pre, buf = pre ++ remainder (extractFrames buf))
  /\ ~ In "]"%char (remainder (extractFrames buf))
  /\ (remainder (extractFrames buf) = buf <-> ~ In "]"%char buf).
Proof.
  destruct (frames_shape buf) as [F O].
  destruct (remainder_spec buf) as (pre & E & _ & Hr).
  repeat split; auto.
  - now exists pre.
  - intros Heq. now rewrite Heq in Hr.
  - apply remainder_no_close.
Qed.

(** C1. However a byte string is cut into chunks, the connection that
    appends each chunk to its buffer and runs [extractFrames] hands out
    the frames of the whole string in the same order, ends with the
    same buffer, decodes the same records (for a given reading of the
    clock), and leaves the store, the log and the forwarded requests as
    the whole string delivered in one chunk does. *)
Theorem chunking_independent (cfg : Config) (now : JsString.t) (w : World)
  (chunks : list JsString.t) :
  framesOfChunks [] chunks = frames (extractFrames (concat chunks))
  /\ bufferAfter [] chunks = remainder (extractFrames (concat chunks))
  /\ map (parseFrame now) (framesOfChunks [] chunks)
     = map (parseFrame now) (frames (extractFrames (concat chunks)))
  /\ onChunks cfg (fun _ => now) chunks ([], w)
     = onData cfg (fun _ => now) (concat chunks) ([], w).
Proof.
  destruct (framesOfChunks_concat [] chunks (fun H => H)) as [F B].
  change ([] ++ concat chunks) with (concat chunks) in F, B.
  repeat split; auto.
  - now rewrite F.
  - rewrite onChunks_frames, F, B. reflexivity.
Qed.

(** ** The claims on the normaliser and the decoder *)

Section DecoderClaims.

Import JsNumber.

(** C2. [toIso] does not refuse digits that name no calendar date: the
    month and the day carry, as [Date.UTC] makes them.  For
    ["999999"] and ["000000"] it answers the 7th of June 2107 (year
    2099, month 99, day 99), and for month 13 the following January,
    where [null] is specified. *)
Theorem toIso_carries_out_of_range :
  toIso (str "999999") (str "000000") = Some (str "2107-06-07T00:00:00.000Z")
  /\ toIso (str "011325") (str "000000") = Some (str "2026-01-01T00:00:00.000Z").
Proof. split; vm_compute; reflexivity. Qed.

(** The rest of what is specified of [toIso] holds. *)
Lemma toIso_examples :
  toIso (str "010125") (str "235959") = Some (str "2025-01-01T23:59:59.000Z")
  /\ toIso (str "12345") (str "000000") = None.
Proof. split; vm_compute; reflexivity. Qed.

(** C3 as it is stated fails on the empty string: it is no numeric
    literal, and [signedCoord] answers [0] for it, not [null]. *)
Lemma signedCoord_blank_counterexample :
  ~ (isNumeric (str "") = false -> signedCoord (str "") (str "N") = None).
Proof. intros H. specialize (H eq_refl). discriminate H. Qed.

(** C3, amended. [signedCoord v hemi] is [null] exactly when [v] is
    not blank and, white space trimmed, is no numeric literal; a blank
    [v] reads as [0]; otherwise the result is [- abs (Number v)] for the
    hemispheres [S] and [W] and [abs (Number v)] for any other, so that
    the hemisphere alone decides the sign.  In particular
    [signedCoord "10.5" "S" = -10.5], [signedCoord "10.5" "N" = 10.5],
    [signedCoord "-10.5" "N" = 10.5] and [signedCoord "abc" "N" = null]. *)
Theorem signedCoord_spec (v hemi : JsString.t) :
  (signedCoord v hemi = None <-> ~ blank v /\ isNumeric v = false)
  /\ (blank v -> ofString v = S754_zero false)
  /\ (forall r, signedCoord v hemi = Some r ->
        r = (if southOrWest hemi then neg (abs (ofString v)) else abs (ofString v))
        /\ (if southOrWest hemi then leb r (ofZ 0) else leb (ofZ 0) r) = true)
  /\ signedCoord (str "10.5") (str "S") = Some (neg (dyadic 21 (-1)))
  /\ signedCoord (str "10.5") (str "N") = Some (dyadic 21 (-1))
  /\ signedCoord (str "-10.5") (str "N") = Some (dyadic 21 (-1))
  /\ signedCoord (str "abc") (str "N") = None.
Proof.
  split; [|split; [|split]].
  - rewrite signedCoord_none, ofString_nan. unfold blank, isNumeric.
    destruct (parseNumericLiteral (trim v)); split; intros [H1 H2]; split; auto; discriminate.
  - unfold blank, ofString. now intros ->.
  - intros r H. destruct (signedCoord_some _ _ _ H) as [Hn ->]. split; [reflexivity|].
    destruct (southOrWest hemi); [now apply neg_abs_nonpos|now apply abs_nonneg].
  - repeat split; vm_compute; reflexivity.
Qed.

Lemma finiteOrNull_nan x : isNaN x = true -> finiteOrNull x = None.
Proof. destruct x; try discriminate. reflexivity. Qed.

Lemma finiteOrNull_finite x : isFinite x = true -> finiteOrNull x = Some x.
Proof. unfold finiteOrNull. now intros ->. Qed.

Lemma isNumeric_false v : isNumeric v = false <-> parseNumericLiteral (trim v) = None.
Proof. unfold isNumeric. destruct (parseNumericLiteral (trim v)); split; congruence. Qed.

(** [Number.isFinite(Number(v)) ? Number(v) : null], the speed and the
    course of a position record as functions of their fields. *)
Lemma finiteOrNull_ofString v :
  (finiteOrNull (ofString v) = None <->
   (~ blank v /\ isNumeric v = false) \/ exists s, ofString v = S754_infinity s)
  /\ (blank v -> finiteOrNull (ofString v) = Some (S754_zero false))
  /\ (forall x, finiteOrNull (ofString v) = Some x -> x = ofString v /\ isFinite x = true).
Proof.
  split; [|split].
  - pose proof (ofString_nan v) as Hnan. rewrite <- isNumeric_false in Hnan.
    fold (blank v) in Hnan.
    destruct (ofString v) as [s|s| |s m e] eqn:E; cbn [finiteOrNull isFinite isNaN] in *;
      unfold finiteOrNull; cbn [isFinite].
    + split; [discriminate|]. intros [H|[s' H]]; [|discriminate].
      apply Hnan in H. discriminate.
    + split; [|reflexivity]. intros _. right. now exists s.
    + split; [|reflexivity]. intros _. left. now apply Hnan.
    + split; [discriminate|]. intros [H|[s' H]]; [|discriminate].
      apply Hnan in H. discriminate.
  - unfold blank, ofString. now intros ->.
  - intros x. unfold finiteOrNull. destruct (isFinite (ofString v)) eqn:F; [|discriminate].
    intros [= <-]. auto.
Qed.

(** C4 as it is stated fails on an empty field: the frame
    [[SG*7*XX*GPS,,,V,0,N,0,W,,]] has nine fields with an empty speed
    and an empty course, which are no numeric literals, and decodes to
    a position record with speed [0] and course [0], not [null]. *)
Lemma parseFrame_blank_speed_counterexample :
  ~ (isNumeric (field (tl (split (str "GPS,,,V,0,N,0,W,,") ",")) 7) = false ->
     forall p, parseFrame noon zeroFrame = Some (Position p) -> speedKph p = None).
Proof.
  intros H. specialize (H eq_refl zeroPosition ltac:(vm_compute; reflexivity)).
  discriminate H.
Qed.

(** C4, amended. For the frame [[body]]: with fewer than three [*] in
    [body] (fewer than four components) [parseFrame] is [null]; with
    [body = vendor*deviceId*third*payload], the payload being all that
    follows the third [*], and [payload = cmd,csv...]: fewer than nine
    fields in [csv] give the event record of [deviceId], [vendor], [cmd]
    and [raw], and nine or more give the position record that reads
    them as date, time, validity (["A"] is valid), latitude magnitude
    and hemisphere, longitude magnitude and hemisphere, speed and
    course; every [body] with three [*] or more is of this form.  The
    speed and the course of the record are [Number] of the eighth and
    the ninth field when that is finite and [null] otherwise, each read
    from its own field only: such a value is [null] exactly when the
    field is not blank and, white space trimmed, is no numeric literal,
    or when it reads as an infinity; a blank field, the empty one
    included, reads as [0] and not as [null].  The frame of the
    specification decodes to the device 123456, valid, latitude 22.5,
    longitude 114.1 (the nearest binary64 value), speed 36, course 90
    and noon of the 1st of January 2025. *)
Theorem parseFrame_spec (now body : JsString.t) :
  let frame := "["%char :: body ++ ["]"%char] in
  ((occurrences "*" body < 3)%nat -> parseFrame now frame = None)
  /\ (forall vendor deviceId third payload cmd csv,
        body = vendor ++ "*"%char :: deviceId ++ "*"%char :: third ++ "*"%char :: payload ->
        ~ In "*"%char vendor -> ~ In "*"%char deviceId -> ~ In "*"%char third ->
        payload = join "," (cmd :: csv) ->
        Forall (fun p => ~ In ","%char p) (cmd :: csv) ->
        ((length csv < 9)%nat ->
           parseFrame now frame = Some (Event (mkEvent deviceId vendor cmd payload)))
        /\ (forall date time valid latMag ns lonMag ew speed course extra,
              csv = date :: time :: valid :: latMag :: ns :: lonMag :: ew :: speed :: course :: extra ->
              parseFrame now frame
              = Some (Position
                        {| deviceId := deviceId; vendor := vendor; cmd := cmd;
                           time := toIso date time;
                           valid := bool_decide (valid = str "A");
                           lat := signedCoord latMag ns;
                           lon := signedCoord lonMag ew;
                           speedKph := finiteOrNull (ofString speed);
                           course := finiteOrNull (ofString course);
                           raw := payload; receivedAt := now |})))
  /\ ((3 <= occurrences "*" body)%nat ->
      exists vendor deviceId third payload cmd csv,
        body = vendor ++ "*"%char :: deviceId ++ "*"%char :: third ++ "*"%char :: payload
        /\ ~ In "*"%char vendor /\ ~ In "*"%char deviceId /\ ~ In "*"%char third
        /\ payload = join "," (cmd :: csv)
        /\ Forall (fun p => ~ In ","%char p) (cmd :: csv))
  /\ (forall v : JsString.t,
        (finiteOrNull (ofString v) = None <->
         (~ blank v /\ isNumeric v = false) \/ exists s, ofString v = S754_infinity s)
        /\ (blank v -> finiteOrNull (ofString v) = Some (S754_zero false))
        /\ (forall x, finiteOrNull (ofString v) = Some x -> x = ofString v /\ isFinite x = true))
  /\ parseFrame now (str "[SG*123456*XX*GPS,010125,120000,A,22.5,N,114.1,E,36.0,90]")
     = Some (Position
               {| deviceId := str "123456"; vendor := str "SG"; cmd := str "GPS";
                  time := Some (str "2025-01-01T12:00:00.000Z");
                  valid := true;
                  lat := Some (dyadic 45 (-1));
                  lon := Some (S754_finite false 8029073710671462 (-46));
                  speedKph := Some (ofZ 36);
                  course := Some (ofZ 90);
                  raw := str "GPS,010125,120000,A,22.5,N,114.1,E,36.0,90";
                  receivedAt := now |})
  /\ Z.abs (10 * 8029073710671462 - 1141 * 2 ^ 46) <= 5.
Proof.
  intros frame. split; [|split; [|split; [|split; [|split]]]].
  - intros Hlt. unfold parseFrame, frame. rewrite slice_strip, split_length.
    destruct (Z.ltb_spec (Z.of_nat (S (occurrences "*" body))) 4); [reflexivity|lia].
  - intros vendor deviceId third payload cmd csv -> Hv Hd Ht Hp Hall.
    assert (Hparse : forall k : Decoded -> Prop,
              (let pieces := cmd :: csv in
               k (if Z.of_nat (length csv) <? 9
                  then Event (mkEvent deviceId vendor cmd payload)
                  else Position
                         (mkPosition deviceId vendor cmd
                            (toIso (field csv 0) (field csv 1))
                            (bool_decide (field csv 2 = str "A"))
                            (signedCoord (field csv 3) (field csv 4))
                            (signedCoord (field csv 5) (field csv 6))
                            (finiteOrNull (ofString (field csv 7)))
                            (finiteOrNull (ofString (field csv 8))) payload now))) ->
              exists r, parseFrame now frame = Some r /\ k r).
    { intros k Hk. unfold parseFrame, frame. rewrite slice_strip.
      rewrite !split_cons by assumption.
      pose proof (split_not_nil payload "*") as Hne.
      destruct (split payload "*") as [|x l] eqn:Es; [contradiction|].
      cbn [length nth skipn].
      match goal with |- context [?a <? 4] => destruct (Z.ltb_spec a 4); [lia|] end.
      rewrite <- Es, join_split.
      assert (Epieces : split payload "," = cmd :: csv).
      { rewrite Hp. apply split_join; [discriminate|assumption]. }
      rewrite Epieces.
      cbn [hd tl]. cbn zeta in Hk.
      destruct (Z.of_nat (length csv) <? 9); eexists; (split; [reflexivity|exact Hk]). }
    split.
    + intros Hlt. destruct (Hparse (fun r => r = Event (mkEvent deviceId vendor cmd payload)))
        as (r & -> & ->); [|reflexivity].
      cbn zeta. destruct (Z.ltb_spec (Z.of_nat (length csv)) 9); [reflexivity|lia].
    + intros date time valid latMag ns lonMag ew speed course extra ->.
      match goal with |- _ = Some ?R => destruct (Hparse (fun r => r = R)) as (r & -> & ->) end;
        [|reflexivity].
      cbn zeta. cbn [length].
      destruct (Z.ltb_spec (Z.of_nat (S (S (S (S (S (S (S (S (S (length extra))))))))))) 9);
        [lia|reflexivity].
  - intros H3. destruct (split_three "*" body H3) as (p1 & p2 & p3 & payload & E & H).
    destruct (split_head "," payload) as (cmd & csv & Ep & Hall).
    exists p1, p2, p3, payload, cmd, csv. tauto.
  - apply finiteOrNull_ofString.
  - vm_compute. reflexivity.
  - vm_compute. discriminate.
Qed.

End DecoderClaims.

(** ** The claims on the policy filter, the store and the forwarder *)

Section HandlerClaims.

Import JsNumber.

(** The configuration is read once, when the process starts. *)
Variable cfg : Config.

Lemma strictEq_zero x : strictEq x (ofZ 0) = true <-> exists s, x = S754_zero s.
Proof.
  destruct x as [s|[]| |[] m e]; split; try discriminate; try (intros [s' H]; discriminate).
  - intros _. now exists s.
  - reflexivity.
Qed.

Lemma hasUsableCoords_true pos :
  hasUsableCoords cfg pos = true <->
  exists x y, latOf pos = Some x /\ lonOf pos = Some y
    /\ isFinite x = true /\ isFinite y = true
    /\ leb (abs x) (ofZ 90) = true /\ leb (abs y) (ofZ 180) = true
    /\ (FORWARD_ALLOW_ZERO_COORDS cfg = true
        \/ ~ (strictEq x (ofZ 0) = true /\ strictEq y (ofZ 0) = true)).
Proof.
  unfold hasUsableCoords.
  destruct (latOf pos) as [x|], (lonOf pos) as [y|]; cbn [isFiniteOpt absLe isZero];
    rewrite ?andb_false_r; cbn [andb negb];
    try (split; [discriminate|intros (x' & y' & H1 & H2 & _); discriminate]).
  destruct (isFinite x) eqn:Fx, (isFinite y) eqn:Fy,
           (leb (abs x) (ofZ 90)) eqn:Lx, (leb (abs y) (ofZ 180)) eqn:Ly; cbn [andb negb];
    try (split; [discriminate|intros (x' & y' & [= <-] & [= <-] & ? & ? & ? & ? & _); congruence]).
  destruct (FORWARD_ALLOW_ZERO_COORDS cfg), (strictEq x (ofZ 0)) eqn:Zx,
           (strictEq y (ofZ 0)) eqn:Zy; cbn [andb negb];
    (split;
     [intros H; try discriminate H; exists x, y; repeat split; auto;
      right; intros [? ?]; congruence
     |intros (x' & y' & [= <-] & [= <-] & _ & _ & _ & _ & [Hz|Hz]);
      try reflexivity; try discriminate Hz; exfalso; apply Hz; split; congruence]).
Qed.

Lemma processRecord_usable pos w :
  hasUsableCoords cfg pos = true ->
  processRecord cfg pos w
  = {| lastPositions := <[deviceIdOf pos := {| own := Some pos; lastEvent := None |}]> (lastPositions w);
       logged := logged w ++ [pos];
       forwarded := forwarded w ++ (if policyForwards cfg pos then [forwardPosition cfg pos] else []) |}.
Proof.
  intros H. unfold processRecord, policyForwards. rewrite H.
  destruct (FORWARD_ENABLED cfg && _); [reflexivity|]. now rewrite app_nil_r.
Qed.

Lemma processRecord_unusable pos w :
  hasUsableCoords cfg pos = false ->
  processRecord cfg pos w
  = {| lastPositions :=
         <[deviceIdOf pos := withLastEvent (lastPositions w !! deviceIdOf pos) pos]> (lastPositions w);
       logged := logged w;
       forwarded := forwarded w |}.
Proof. intros H. unfold processRecord. now rewrite H. Qed.

(** C5, amended. [hasUsableCoords] holds exactly of a record whose
    latitude and longitude are finite numbers with [|lat| <= 90],
    [|lon| <= 180] and, unless [FORWARD_ALLOW_ZERO_COORDS] is set, not
    both zero.  A record at latitude 0 and longitude 0 is, with the
    flag off, not logged and not forwarded, and it is not stored as the
    position of its device; it is written into the store as the
    [lastEvent] of the device, beside the position kept before.  With
    the flag on it is stored as the position of its device and logged,
    and it is forwarded exactly when the forwarding policy lets it
    through, as any record with usable coordinates. *)
Theorem hasUsableCoords_spec (pos : Decoded) :
  (hasUsableCoords cfg pos = true <->
   exists x y, latOf pos = Some x /\ lonOf pos = Some y
     /\ isFinite x = true /\ isFinite y = true
     /\ leb (abs x) (ofZ 90) = true /\ leb (abs y) (ofZ 180) = true
     /\ (FORWARD_ALLOW_ZERO_COORDS cfg = true
         \/ ~ (strictEq x (ofZ 0) = true /\ strictEq y (ofZ 0) = true)))
  /\ (forall w x y,
        latOf pos = Some x -> lonOf pos = Some y ->
        strictEq x (ofZ 0) = true -> strictEq y (ofZ 0) = true ->
        (FORWARD_ALLOW_ZERO_COORDS cfg = false ->
           processRecord cfg pos w
           = {| lastPositions :=
                  <[deviceIdOf pos := withLastEvent (lastPositions w !! deviceIdOf pos) pos]>
                    (lastPositions w);
                logged := logged w;
                forwarded := forwarded w |})
        /\ (FORWARD_ALLOW_ZERO_COORDS cfg = true ->
              processRecord cfg pos w
              = {| lastPositions :=
                     <[deviceIdOf pos := {| own := Some pos; lastEvent := None |}]> (lastPositions w);
                   logged := logged w ++ [pos];
                   forwarded := forwarded w ++
                     (if policyForwards cfg pos then [forwardPosition cfg pos] else []) |})).
Proof.
  split; [apply hasUsableCoords_true|].
  intros w x y Hx Hy Zx Zy. split; intros Hf.
  - apply processRecord_unusable.
    destruct (hasUsableCoords cfg pos) eqn:E; [|reflexivity].
    apply hasUsableCoords_true in E.
    destruct E as (x' & y' & Hx' & Hy' & _ & _ & _ & _ & [Hz|Hz]); [congruence|].
    exfalso. apply Hz. split; congruence.
  - apply processRecord_usable, hasUsableCoords_true.
    apply strictEq_zero in Zx, Zy. destruct Zx as [sx ->], Zy as [sy ->].
    exists (S754_zero sx), (S754_zero sy). repeat split; auto.
Qed.

Lemma app_one_neq {A} (l : list A) (x : A) : l <> l ++ [x].
Proof.
  intros H. apply (f_equal (@length A)) in H. rewrite length_app in H. simpl in H. lia.
Qed.

(** C6. A record with usable coordinates is stored and logged, and it
    is forwarded exactly when [FORWARD_ENABLED] is set and
    [FORWARD_ONLY_VALID] is off or the record is valid: with
    [FORWARD_ONLY_VALID] on, an invalid one is stored and logged and
    not forwarded; with it off (and forwarding enabled) it is
    forwarded. *)
Theorem forwarding_policy (pos : Decoded) (w : World) :
  hasUsableCoords cfg pos = true ->
  let w' := processRecord cfg pos w in
  lastPositions w' !! deviceIdOf pos = Some {| own := Some pos; lastEvent := None |}
  /\ logged w' = logged w ++ [pos]
  /\ (forwarded w' = forwarded w ++ [forwardPosition cfg pos] <->
      FORWARD_ENABLED cfg = true /\ (FORWARD_ONLY_VALID cfg = false \/ validIsTrue pos = true))
  /\ (forwarded w' = forwarded w <->
      ~ (FORWARD_ENABLED cfg = true /\ (FORWARD_ONLY_VALID cfg = false \/ validIsTrue pos = true)))
  /\ (FORWARD_ONLY_VALID cfg = true -> validIsTrue pos = false -> forwarded w' = forwarded w)
  /\ (FORWARD_ONLY_VALID cfg = false -> FORWARD_ENABLED cfg = true ->
      forwarded w' = forwarded w ++ [forwardPosition cfg pos]).
Proof.
  intros H w'. subst w'. rewrite (processRecord_usable _ _ H). cbn [lastPositions logged forwarded].
  unfold policyForwards.
  split; [apply lookup_insert_eq|]. split; [reflexivity|].
  destruct (FORWARD_ENABLED cfg), (FORWARD_ONLY_VALID cfg), (validIsTrue pos);
    cbn [andb orb negb]; rewrite ?app_nil_r;
    repeat match goal with
           | |- _ /\ _ => split
           | |- _ <-> _ => split
           end;
    intros;
    try reflexivity;
    try (exfalso; eapply app_one_neq; eassumption);
    try (exfalso; eapply app_one_neq; symmetry; eassumption);
    try (intuition congruence).
Qed.

(** C7. A record with usable coordinates replaces the entry of its
    device; any other decoded record sets [lastEvent] on the entry
    there is, or makes an entry of [lastEvent] alone; so a position
    [R1] followed by an event [R2] of the same device leaves the fields
    of [R1] with [lastEvent = R2]. *)
Theorem store_write_rule (w : World) (R1 R2 : Decoded) :
  (hasUsableCoords cfg R1 = true ->
     lastPositions (processRecord cfg R1 w)
     = <[deviceIdOf R1 := {| own := Some R1; lastEvent := None |}]> (lastPositions w))
  /\ (hasUsableCoords cfg R2 = false ->
        (forall e, lastPositions w !! deviceIdOf R2 = Some e ->
           lastPositions (processRecord cfg R2 w)
           = <[deviceIdOf R2 := {| own := own e; lastEvent := Some R2 |}]> (lastPositions w))
        /\ (lastPositions w !! deviceIdOf R2 = None ->
              lastPositions (processRecord cfg R2 w)
              = <[deviceIdOf R2 := {| own := None; lastEvent := Some R2 |}]> (lastPositions w)))
  /\ (hasUsableCoords cfg R1 = true -> hasUsableCoords cfg R2 = false ->
      deviceIdOf R1 = deviceIdOf R2 ->
      lastPositions (processRecord cfg R2 (processRecord cfg R1 w)) !! deviceIdOf R1
      = Some {| own := Some R1; lastEvent := Some R2 |}).
Proof.
  split; [|split].
  - intros H. now rewrite processRecord_usable.
  - intros H. rewrite processRecord_unusable by assumption. cbn [lastPositions].
    split; [intros e ->|intros ->]; reflexivity.
  - intros H1 H2 E.
    rewrite (processRecord_unusable _ _ H2), (processRecord_usable _ _ H1).
    cbn [lastPositions]. rewrite <- E, !lookup_insert_eq. reflexivity.
Qed.

Lemma processRecord_other pos w k :
  deviceIdOf pos <> k ->
  lastPositions (processRecord cfg pos w) !! k = lastPositions w !! k.
Proof.
  intros Hk. unfold processRecord.
  destruct (hasUsableCoords cfg pos); [destruct (_ && _)|]; cbn [lastPositions];
    now apply lookup_insert_ne.
Qed.

Lemma processRecord_keeps pos w k :
  is_Some (lastPositions w !! k) -> is_Some (lastPositions (processRecord cfg pos w) !! k).
Proof.
  intros Hk. destruct (decide (deviceIdOf pos = k)) as [<-|Hne].
  - unfold processRecord.
    destruct (hasUsableCoords cfg pos); [destruct (_ && _)|]; cbn [lastPositions];
      rewrite lookup_insert_eq; eauto.
  - now rewrite processRecord_other.
Qed.

Lemma processFrame_keeps now frame w k :
  is_Some (lastPositions w !! k) -> is_Some (lastPositions (processFrame cfg now frame w) !! k).
Proof.
  intros Hk. unfold processFrame. destruct (parseFrame now frame); [|assumption].
  now apply processRecord_keeps.
Qed.

Lemma processFrames_keeps clock i fs w k :
  is_Some (lastPositions w !! k) -> is_Some (lastPositions (processFrames cfg clock i fs w) !! k).
Proof.
  revert i w. induction fs as [|f fs IH]; intros i w Hk; [assumption|].
  simpl. apply IH. now apply processFrame_keeps.
Qed.

(** C8. One frame changes at most the entry of its own device: the
    entry of every other identifier stays, a frame that does not
    decode changes nothing, and no identifier leaves the store, neither
    by one frame nor by any run of frames or chunks. *)
Theorem store_frame (now : JsString.t) (frame : JsString.t) (w : World) :
  let w' := processFrame cfg now frame w in
  (forall k, (forall pos, parseFrame now frame = Some pos -> deviceIdOf pos <> k) ->
     lastPositions w' !! k = lastPositions w !! k)
  /\ (parseFrame now frame = None -> w' = w)
  /\ (forall k, is_Some (lastPositions w !! k) -> is_Some (lastPositions w' !! k))
  /\ (forall clock i fs k, is_Some (lastPositions w !! k) ->
        is_Some (lastPositions (processFrames cfg clock i fs w) !! k))
  /\ (forall clock chunks buffer k, is_Some (lastPositions w !! k) ->
        is_Some (lastPositions (snd (onChunks cfg clock chunks (buffer, w))) !! k)).
Proof.
  intros w'. subst w'. repeat split.
  - intros k Hk. unfold processFrame. destruct (parseFrame now frame) as [pos|]; [|reflexivity].
    apply processRecord_other. now apply Hk.
  - intros H. unfold processFrame. now rewrite H.
  - intros k. apply processFrame_keeps.
  - intros clock i fs k. apply processFrames_keeps.
  - intros clock chunks. revert w. induction chunks as [|c cs IH]; intros w buffer k Hk.
    + assumption.
    + cbn [onChunks]. unfold onData. apply IH. cbn [snd]. now apply processFrames_keeps.
Qed.

Lemma parseFrame_time now frame p t :
  parseFrame now frame = Some (Position p) -> time p = Some t -> t <> [].
Proof.
  unfold parseFrame. destruct (_ <? 4); [discriminate|].
  destruct (_ <? 9); [discriminate|].
  intros [= <-]. cbn [time]. apply toIso_not_empty.
Qed.

Lemma forwardParams_expected p :
  (forall t, time p = Some t -> t <> []) ->
  forwardParams (Position p) = expectedParams p.
Proof.
  intros Ht. unfold forwardParams, expectedParams, kphToKnots.
  destruct (time p) as [[|c t]|]; [now contradiction (Ht [] eq_refl)| |];
    destruct (speedKph p), (course p); reflexivity.
Qed.

Lemma decimalAux_digits fuel n acc :
  0 <= n -> forallb isDigit acc = true -> forallb isDigit (decimalAux fuel n acc) = true.
Proof.
  revert n acc. induction fuel as [|f IH]; intros n acc Hn Hacc; [exact Hacc|].
  cbn [decimalAux].
  assert (Hd : forallb isDigit (digitChar (n mod 10) :: acc) = true).
  { cbn [forallb]. rewrite Hacc, andb_true_r. apply digitChar_isDigit.
    pose proof (Z.mod_pos_bound n 10 ltac:(lia)). lia. }
  destruct (n <? 10); [exact Hd|].
  apply IH; [apply Z.div_pos; lia|exact Hd].
Qed.

Lemma decimalAux_not_nil fuel n acc : acc <> [] -> decimalAux fuel n acc <> [].
Proof.
  revert n acc. induction fuel as [|f IH]; intros n acc Hacc; [exact Hacc|].
  cbn [decimalAux]. destruct (n <? 10); [discriminate|]. apply IH. discriminate.
Qed.

(** The digits of a non-negative integer: one at least, and digits
    only. *)
Lemma decimal_digits n :
  0 <= n -> exists c r, decimal n = c :: r /\ forallb isDigit (c :: r) = true.
Proof.
  intros Hn. unfold decimal.
  pose proof (decimalAux_digits (S (Z.to_nat (Z.log2 n))) n [] Hn eq_refl) as Hd.
  assert (Hne : decimalAux (S (Z.to_nat (Z.log2 n))) n [] <> []).
  { cbn [decimalAux]. destruct (n <? 10); [discriminate|].
    apply decimalAux_not_nil. discriminate. }
  destruct (decimalAux _ n []) as [|c r]; [contradiction|]. eauto.
Qed.

Lemma forallb_reverse {A} (f : A -> bool) l : forallb f (rev l) = forallb f l.
Proof.
  induction l as [|a l IH]; [reflexivity|].
  cbn [rev forallb]. rewrite forallb_app, IH. cbn [forallb].
  rewrite andb_true_r. apply andb_comm.
Qed.

Lemma digit_not_minus c : isDigit c = true -> Ascii.eqb c "-" = false.
Proof.
  intros H. destruct (Ascii.eqb_spec c "-"%char) as [->|]; [discriminate H|reflexivity].
Qed.

(** [toFixed(2)] prints two decimal places below [10 ^ 21], and from
    there on what [String] prints. *)
Lemma toFixed2_places x :
  (magnitudeBelow x (10 ^ 21) = true -> twoDecimalPlaces (toFixed2 x) = true)
  /\ (magnitudeBelow x (10 ^ 21) = false -> toFixed2 x = toString x).
Proof.
  destruct x as [s|s| |s m e]; cbn [magnitudeBelow]; split; try discriminate; try reflexivity.
  - unfold toFixed2. destruct (fraction m e) as [num den] eqn:Ef.
    rewrite Z.ltb_lt. intros Hlt.
    destruct (Z.leb_spec (10 ^ 21 * den) num) as [Hge|_]; [lia|].
    assert (Hden : 0 < den /\ 0 < num).
    { unfold fraction in Ef. destruct (0 <=? e) eqn:He; injection Ef as <- <-.
      - split; [lia|]. apply Z.mul_pos_pos; [lia|]. apply Z.pow_pos_nonneg; [lia|].
        now apply Z.leb_le.
      - split; [|lia]. apply Z.pow_pos_nonneg; [lia|]. apply Z.leb_gt in He. lia. }
    set (n := (200 * num + den) / (2 * den)).
    assert (Hn : 0 <= n) by (apply Z.div_pos; lia).
    destruct (decimal_digits (n / 100) ltac:(apply Z.div_pos; lia)) as (c & r & -> & Hcr).
    assert (H1 : isDigit (digitChar (n / 10 mod 10)) = true).
    { apply digitChar_isDigit. pose proof (Z.mod_pos_bound (n / 10) 10 ltac:(lia)). lia. }
    assert (H0 : isDigit (digitChar (n mod 10)) = true).
    { apply digitChar_isDigit. pose proof (Z.mod_pos_bound n 10 ltac:(lia)). lia. }
    assert (Hbody : twoDecimalPlaces
                      ((c :: r) ++ "."%char :: [digitChar (n / 10 mod 10); digitChar (n mod 10)])
                    = true).
    { unfold twoDecimalPlaces. cbn [app].
      cbn [forallb] in Hcr. apply andb_true_iff in Hcr. destruct Hcr as [Hc Hr].
      rewrite (digit_not_minus c Hc).
      change (c :: r ++ "."%char :: [digitChar (n / 10 mod 10); digitChar (n mod 10)])
        with ((c :: r) ++ ["."%char; digitChar (n / 10 mod 10); digitChar (n mod 10)]).
      rewrite rev_app_distr. cbn [rev app].
      rewrite H0, H1, length_app, Nat.add_1_r, forallb_app, forallb_reverse, Hr.
      cbn [forallb Nat.eqb negb]. rewrite Hc. reflexivity. }
    destruct s; [|exact Hbody].
    unfold twoDecimalPlaces in *. cbn [app str list_ascii_of_string] in *.
    change (Ascii.eqb "-" "-") with true. cbn [app] in Hbody.
    rewrite (digit_not_minus c) in Hbody; [exact Hbody|].
    cbn [forallb] in Hcr. now apply andb_true_iff in Hcr.
  - unfold toFixed2. destruct (fraction m e) as [num den].
    rewrite Z.ltb_ge. intros Hge.
    destruct (Z.leb_spec (10 ^ 21 * den) num) as [_|Hlt]; [reflexivity|lia].
Qed.

(** C9, amended. The request made for a decoded position record is a
    [GET] of the backend address with the query [id], [lat], [lon],
    then [timestamp] exactly when [time] is not null, [valid] as
    ["true"] or ["false"], [speed] exactly when [speedKph] is not null,
    being [speedKph * 0.539956803] printed by [toFixed(2)], and
    [bearing] exactly when [course] is not null, with the header
    [User-Agent: tk905-forwarder/1.0]; the constant is the binary64
    value nearest to 0.539956803.  [toFixed(2)] prints the speed with
    two decimal places when its magnitude is below [10 ^ 21], and as
    [String] prints it, in exponent form, from there on. *)
Theorem forward_request (now frame : JsString.t) (p : PositionRecord) :
  parseFrame now frame = Some (Position p) ->
  forwardPosition cfg (Position p)
  = {| url := FORWARD_URL cfg ++ "?"%char :: URLSearchParams.toString (expectedParams p);
       method := str "GET";
       headers := [(str "User-Agent", str "tk905-forwarder/1.0")] |}
  /\ (forall kph, speedKph p = Some kph ->
        In (str "speed", toFixed2 (kphToKnots kph)) (forwardParams (Position p))
        /\ (magnitudeBelow (kphToKnots kph) (10 ^ 21) = true ->
            twoDecimalPlaces (toFixed2 (kphToKnots kph)) = true)
        /\ (magnitudeBelow (kphToKnots kph) (10 ^ 21) = false ->
            toFixed2 (kphToKnots kph) = toString (kphToKnots kph)))
  /\ knotsPerKph = S754_finite false 4863498513573929 (-53)
  /\ 2 * Z.abs (10 ^ 9 * 4863498513573929 - 539956803 * 2 ^ 53) <= 10 ^ 9.
Proof.
  intros H.
  assert (Hp : forwardParams (Position p) = expectedParams p).
  { apply forwardParams_expected. intros t. now apply (parseFrame_time now frame). }
  split; [|split; [|split]].
  - unfold forwardPosition. rewrite Hp. reflexivity.
  - intros kph Hk. split; [|apply toFixed2_places].
    rewrite Hp. unfold expectedParams. rewrite Hk.
    apply in_or_app. right. apply in_or_app. right. apply in_or_app. right.
    apply in_or_app. left. unfold kphToKnots. left. reflexivity.
  - reflexivity.
  - vm_compute. discriminate.
Qed.

End HandlerClaims.

(** ** Where the claims as stated fail *)

Section StatedClaims.

Import JsNumber.

(** C5 as it is stated fails on the record at latitude 0 and
    longitude 0 of the frame [[SG*7*XX*GPS,,,V,0,N,0,W,,]].  With the
    flag off it is not excluded from storage: the handler writes it
    into [lastPositions] as the [lastEvent] of its device, so the store
    changes.  With the flag on it is not forwarded under the default
    policy, for it is not valid. *)
Lemma hasUsableCoords_zero_counterexample :
  ~ (FORWARD_ALLOW_ZERO_COORDS defaultConfig = false ->
     lastPositions (processRecord defaultConfig (Position zeroPosition) emptyWorld)
     = lastPositions emptyWorld)
  /\ ~ (FORWARD_ALLOW_ZERO_COORDS allowZeroConfig = true ->
        forwarded (processRecord allowZeroConfig (Position zeroPosition) emptyWorld)
        = [forwardPosition allowZeroConfig (Position zeroPosition)]).
Proof.
  split; intros H; specialize (H eq_refl).
  - apply (f_equal (fun m => m !! str "7")) in H.
    rewrite (processRecord_unusable defaultConfig) in H by reflexivity.
    cbn [lastPositions deviceIdOf zeroPosition deviceId emptyWorld] in H.
    rewrite lookup_insert_eq, lookup_empty in H. discriminate H.
  - rewrite (processRecord_usable allowZeroConfig) in H by reflexivity.
    cbn [forwarded emptyWorld app] in H.
    change (policyForwards allowZeroConfig (Position zeroPosition)) with false in H.
    discriminate H.
Qed.

(** The frame of the specification with the speed [2e21] decodes, has
    usable coordinates and is valid, and so is forwarded with the
    default configuration. *)
Lemma fastFrame_forwarded :
  parseFrame noon fastFrame = Some (Position fastPosition)
  /\ map url (forwarded (processFrame defaultConfig noon fastFrame emptyWorld))
     = [str "https://backend.sps-global.com.mx/api/osmand?id=123456&lat=22.5&lon=114.1&timestamp=2025-01-01T12%3A00%3A00.000Z&valid=true&speed=1.0799136060000001e%2B21&bearing=90"].
Proof. split; vm_compute; reflexivity. Qed.

(** C9 as it is stated fails on that record: its speed in knots is
    [1.0799136060000001e+21], which [toFixed(2)] prints in exponent
    form and not with two decimal places. *)
Lemma forward_speed_counterexample :
  ~ (forall v, parseFrame noon fastFrame = Some (Position fastPosition) ->
       In (str "speed", v) (forwardParams (Position fastPosition)) ->
       twoDecimalPlaces v = true).
Proof.
  intros H.
  specialize (H (str "1.0799136060000001e+21") ltac:(vm_compute; reflexivity)).
  assert (Hin : In (str "speed", str "1.0799136060000001e+21")
                  (forwardParams (Position fastPosition))).
  { vm_compute. do 5 right. left. reflexivity. }
  specialize (H Hin). vm_compute in H. discriminate H.
Qed.

End StatedClaims.

(** ** The claims at concrete inputs *)

Section Witnesses.

(** A character that does not occur in a literal. *)
Ltac absent :=
  let H := fresh in
  intros H; simpl in H; repeat (destruct H as [H|H]; [discriminate H|]); exact H.

Lemma specFrame_decodes now : parseFrame now specFrame = Some (Position (specPosition now)).
Proof. vm_compute. reflexivity. Qed.

Lemma eventFrame_decodes now : parseFrame now eventFrame = Some (Event specEvent).
Proof. vm_compute. reflexivity. Qed.

Lemma zeroFrame_decodes : parseFrame noon zeroFrame = Some (Position zeroPosition).
Proof. vm_compute. reflexivity. Qed.

Lemma forwarding_policy_witness :
  hasUsableCoords defaultConfig (Position (specPosition noon)) = true
  /\ logged (processRecord defaultConfig (Position (specPosition noon)) emptyWorld)
     = [Position (specPosition noon)].
Proof.
  split; [vm_compute; reflexivity|].
  apply (forwarding_policy defaultConfig (Position (specPosition noon)) emptyWorld).
  vm_compute. reflexivity.
Defined.

Lemma store_write_rule_witness :
  lastPositions
    (processRecord defaultConfig (Event specEvent)
       (processRecord defaultConfig (Position (specPosition noon)) emptyWorld))
  !! str "123456"
  = Some {| own := Some (Position (specPosition noon)); lastEvent := Some (Event specEvent) |}.
Proof.
  apply (store_write_rule defaultConfig emptyWorld (Position (specPosition noon)) (Event specEvent));
    vm_compute; reflexivity.
Defined.

Lemma forward_request_witness :
  parseFrame noon specFrame = Some (Position (specPosition noon))
  /\ url (forwardPosition defaultConfig (Position (specPosition noon)))
     = str "https://backend.sps-global.com.mx/api/osmand?id=123456&lat=22.5&lon=114.1&timestamp=2025-01-01T12%3A00%3A00.000Z&valid=true&speed=19.44&bearing=90".
Proof.
  split; [vm_compute; reflexivity|].
  rewrite (proj1 (forward_request defaultConfig noon specFrame (specPosition noon)
                    ltac:(vm_compute; reflexivity))).
  vm_compute. reflexivity.
Defined.

Lemma signedCoord_spec_witness :
  blank (str "") /\ JsNumber.ofString (str "") = S754_zero false.
Proof.
  split; [reflexivity|].
  apply (signedCoord_spec (str "") (str "N")). reflexivity.
Defined.

Lemma parseFrame_spec_witness :
  parseFrame noon specFrame = Some (Position (specPosition noon)).
Proof.
  refine (proj2 (proj1 (proj2 (parseFrame_spec noon
            (str "SG*123456*XX*GPS,010125,120000,A,22.5,N,114.1,E,36.0,90")))
          (str "SG") (str "123456") (str "XX")
          (str "GPS,010125,120000,A,22.5,N,114.1,E,36.0,90") (str "GPS")
          [str "010125"; str "120000"; str "A"; str "22.5"; str "N"; str "114.1"; str "E";
           str "36.0"; str "90"] eq_refl _ _ _ eq_refl _)
          (str "010125") (str "120000") (str "A") (str "22.5") (str "N") (str "114.1") (str "E")
          (str "36.0") (str "90") [] eq_refl);
    try absent.
  repeat constructor; absent.
Defined.

Lemma hasUsableCoords_spec_witness :
  logged (processRecord defaultConfig (Position zeroPosition) emptyWorld) = []
  /\ forwarded (processRecord defaultConfig (Position zeroPosition) emptyWorld) = []
  /\ is_Some (lastPositions (processRecord defaultConfig (Position zeroPosition) emptyWorld)
               !! str "7").
Proof.
  rewrite (proj1 (proj2 (hasUsableCoords_spec defaultConfig (Position zeroPosition)) emptyWorld
                    (S754_zero false) (S754_zero true) eq_refl eq_refl eq_refl eq_refl) eq_refl).
  repeat split. cbn [lastPositions deviceIdOf zeroPosition deviceId].
  rewrite lookup_insert_eq. eauto.
Defined.

Lemma store_frame_witness :
  lastPositions (processFrame defaultConfig noon specFrame emptyWorld) !! str "999"
  = lastPositions emptyWorld !! str "999".
Proof.
  apply (store_frame defaultConfig noon specFrame emptyWorld).
  intros pos H. rewrite specFrame_decodes in H. injection H as <-.
  cbn [deviceIdOf specPosition deviceId]. discriminate.
Defined.

End Witnesses.

(** * Further properties *)

(** ** Frame extractor: streams, re-scans, what is kept and dropped *)

Section ExtractorMore.

Lemma extractFrames_eta buf :
  extractFrames buf
  = {| frames := frames (extractFrames buf); remainder := remainder (extractFrames buf) |}.
Proof. reflexivity. Qed.

Lemma frames_wellFramed_head f rest :
  WellFramed f -> frames (extractFrames (f ++ rest)) = f :: frames (extractFrames rest).
Proof.
  intros (body & -> & Hb).
  replace (("["%char :: body ++ ["]"%char]) ++ rest) with (("["%char :: body) ++ "]"%char :: rest)
    by (simpl; now rewrite <- app_assoc).
  rewrite frames_first_close.
  - unfold closedFrame. simpl. reflexivity.
  - intros [E|E]; [discriminate|auto].
Qed.

Lemma remainder_wellFramed_head f rest :
  WellFramed f -> remainder (extractFrames (f ++ rest)) = remainder (extractFrames rest).
Proof.
  intros (body & -> & Hb).
  replace (("["%char :: body ++ ["]"%char]) ++ rest) with (("["%char :: body) ++ "]"%char :: rest)
    by (simpl; now rewrite <- app_assoc).
  apply remainder_first_close.
Qed.

Lemma remainder_skip_gap g f rest :
  WellFramed f ->
  remainder (extractFrames (g ++ f ++ rest)) = remainder (extractFrames rest).
Proof.
  intros (body & -> & Hb).
  replace (g ++ ("["%char :: body ++ ["]"%char]) ++ rest)
    with ((g ++ "["%char :: body) ++ "]"%char :: rest)
    by (rewrite <- !app_assoc; simpl; now rewrite <- app_assoc).
  apply remainder_first_close.
Qed.

(** X1. Frames sent one after the other, with anything but an opening
    bracket between them and an unfinished rest behind, come out as
    they went in, and the rest is what the buffer keeps.  A frame may
    hold opening brackets: only a closing bracket ends it. *)
Theorem frames_of_stream (items : list (JsString.t * JsString.t)) (tail : JsString.t) :
  Forall GapThenFrame items ->
  ~ In "]"%char tail ->
  extractFrames (stream items tail) = {| frames := map snd items; remainder := tail |}.
Proof.
  intros Hitems Htail.
  assert (H : frames (extractFrames (stream items tail)) = map snd items
              /\ remainder (extractFrames (stream items tail)) = tail).
  { induction Hitems as [|[g f] items [Hg Hf] _ [IHf IHr]]; cbn [stream map snd fst] in *.
    - now rewrite frames_no_close, remainder_no_close.
    - rewrite frames_skip by assumption.
      rewrite frames_wellFramed_head, remainder_skip_gap by assumption.
      now rewrite IHf, IHr. }
  destruct H as [Hf Hr]. now rewrite extractFrames_eta, Hf, Hr.
Qed.

(** X2. What the buffer keeps holds no complete frame: scanning it again
    finds nothing and keeps all of it. *)
Theorem rescan_finds_nothing (buf : JsString.t) :
  extractFrames (remainder (extractFrames buf))
  = {| frames := []; remainder := remainder (extractFrames buf) |}.
Proof.
  rewrite (extractFrames_eta (remainder _)).
  now rewrite frames_no_close, remainder_no_close by apply remainder_closed_free.
Qed.

(** X3. The buffer after a chunk: a chunk with a closing bracket leaves
    only what follows its last one, and nothing of what was buffered; a
    chunk without one is added whole to what was kept. *)
Theorem remainder_append (a b : JsString.t) :
  (In "]"%char b ->
   remainder (extractFrames (a ++ b)) = remainder (extractFrames b))
  /\ (~ In "]"%char b ->
      remainder (extractFrames (a ++ b)) = remainder (extractFrames a) ++ b).
Proof.
  split; intros Hb.
  - destruct (last_split _ _ Hb) as (p & r & -> & Hr).
    rewrite remainder_last_close by assumption.
    rewrite app_assoc. now apply remainder_last_close.
  - destruct (remainder_spec a) as (pre & Ea & Hpre & Hra).
    apply (remainder_unique _ pre).
    + rewrite app_assoc, <- Ea. reflexivity.
    + assumption.
    + intros H. apply in_app_or in H. tauto.
Qed.

Lemma closedFrame_length p :
  (length (concat (closedFrame p)) <= S (length p))%nat
  /\ (length (closedFrame p) <= 1)%nat
  /\ (length (closedFrame p) <= occurrences "[" p)%nat.
Proof.
  unfold closedFrame. destruct (fromOpen p) as [f|] eqn:E.
  - destruct (fromOpen_some _ _ E) as (q & t & -> & -> & Hq).
    cbn [concat]. rewrite app_nil_r. unfold occurrences.
    rewrite count_occ_app, !length_app. cbn [length count_occ].
    destruct (ascii_dec "[" "["); [|contradiction]. lia.
  - cbn [concat length]. lia.
Qed.

(** X4. Nothing is made up and nothing comes out twice: the frames and the
    kept rest together are no longer than the buffer, and there are no
    more frames than closing brackets, nor than opening ones. *)
Theorem frames_conserve (buf : JsString.t) :
  (length (concat (frames (extractFrames buf))) + length (remainder (extractFrames buf))
   <= length buf)%nat
  /\ (length (frames (extractFrames buf)) <= occurrences "]" buf)%nat
  /\ (length (frames (extractFrames buf)) <= occurrences "[" buf)%nat.
Proof.
  induction buf as [buf Hn|p r Hp (IH1 & IH2 & IH3)] using (sep_ind "]").
  - rewrite frames_no_close, remainder_no_close by assumption. cbn [concat length]. lia.
  - rewrite frames_first_close, remainder_first_close by assumption.
    destruct (closedFrame_length p) as (L1 & L2 & L3).
    rewrite concat_app, !length_app. unfold occurrences in *.
    rewrite !count_occ_app. cbn [length count_occ].
    destruct (ascii_dec "]" "]"); [|contradiction].
    destruct (ascii_dec "]" "["); [discriminate|]. lia.
Qed.

(** X5. What comes before a closing bracket without an opening one is
    dropped without trace. *)
Theorem stray_close_drops (p r : JsString.t) :
  ~ In "["%char p ->
  extractFrames (p ++ "]"%char :: r) = extractFrames r.
Proof.
  intros Hp. rewrite (extractFrames_eta (p ++ _)), (extractFrames_eta r).
  rewrite remainder_first_close. f_equal.
  replace (p ++ "]"%char :: r) with ((p ++ ["]"%char]) ++ r) by (now rewrite <- app_assoc).
  apply frames_skip. intros H. apply in_app_or in H.
  destruct H as [H|[H|[]]]; [auto|discriminate].
Qed.

End ExtractorMore.

(** ** Normaliser and decoder: when they answer, and what *)

Section DecoderMore.

Import JsNumber.

Lemma zrange_in a n z : a <= z < a + Z.of_nat n -> In z (zrange a n).
Proof.
  intros H. unfold zrange. apply in_map_iff.
  exists (Z.to_nat (z - a)). split; [lia|]. apply in_seq. lia.
Qed.

Lemma centuryDates_ok : centuryDatesCheck = true.
Proof. vm_compute. reflexivity. Qed.

Lemma twoDigitPad_ok : twoDigitPadCheck = true.
Proof. vm_compute. reflexivity. Qed.

Lemma daysInMonth_le y m : daysInMonth y m <= 31.
Proof.
  unfold daysInMonth. destruct (m =? 2); [destruct (JsDate.InLeapYear y); lia|].
  destruct (_ || _); lia.
Qed.

Lemma civil_of_day y m d :
  2000 <= y <= 2099 -> 1 <= m <= 12 -> 1 <= d <= daysInMonth y m ->
  JsDate.civilFromDays (JsDate.MakeDay y (m - 1) d) = (y, m, d).
Proof.
  intros Hy Hm Hd. pose proof (daysInMonth_le y m) as Hle.
  pose proof centuryDates_ok as H. unfold centuryDatesCheck in H.
  rewrite forallb_forall in H. specialize (H y (zrange_in 2000 100 y ltac:(lia))).
  rewrite forallb_forall in H. specialize (H m (zrange_in 1 12 m ltac:(lia))).
  rewrite forallb_forall in H. specialize (H d (zrange_in 1 31 d ltac:(lia))).
  destruct (Z.leb_spec d (daysInMonth y m)); [|lia].
  destruct (JsDate.civilFromDays _) as [[y' m'] d'].
  rewrite !andb_true_iff, !Z.eqb_eq in H. destruct H as [[-> ->] ->]. reflexivity.
Qed.

Lemma pad_two n :
  0 <= n <= 99 ->
  JsDate.pad 2 n = [digitChar (n / 10); digitChar (n mod 10)]
  /\ JsDate.pad 4 (2000 + n) = ["2"%char; "0"%char; digitChar (n / 10); digitChar (n mod 10)].
Proof.
  intros Hn. pose proof twoDigitPad_ok as H. unfold twoDigitPadCheck in H.
  rewrite forallb_forall in H. specialize (H n (zrange_in 0 100 n ltac:(lia))).
  rewrite andb_true_iff, !bool_decide_eq_true in H. exact H.
Qed.

Lemma digitChar_digitVal a : isDigit a = true -> digitChar (digitVal a) = a /\ 0 <= digitVal a <= 9.
Proof.
  intros H. apply digit_cases in H. simpl in H.
  repeat (destruct H as [<-|H]; [vm_compute; split; [reflexivity|split; discriminate]|]).
  contradiction.
Qed.

Lemma pad_digits a b :
  isDigit a = true -> isDigit b = true ->
  JsDate.pad 2 (twoDigitVal a b) = [a; b]
  /\ JsDate.pad 4 (2000 + twoDigitVal a b) = ["2"%char; "0"%char; a; b].
Proof.
  intros Ha Hb.
  destruct (digitChar_digitVal a Ha) as [Ea Ba], (digitChar_digitVal b Hb) as [Eb Bb].
  unfold twoDigitVal.
  destruct (pad_two (10 * digitVal a + digitVal b) ltac:(lia)) as [P2 P4].
  replace ((10 * digitVal a + digitVal b) / 10) with (digitVal a) in *
    by (apply Z.div_unique with (r := digitVal b); lia).
  replace ((10 * digitVal a + digitVal b) mod 10) with (digitVal b) in *
    by (apply Z.mod_unique with (q := digitVal a); lia).
  now rewrite P2, P4, Ea, Eb.
Qed.

Lemma time_of_day day H M S_ :
  0 <= H <= 23 -> 0 <= M <= 59 -> 0 <= S_ <= 59 ->
  let tv := JsDate.MakeDate day (JsDate.MakeTime H M S_ 0) in
  tv / JsDate.msPerDay = day
  /\ tv mod JsDate.msPerDay / 3600000 = H
  /\ tv mod JsDate.msPerDay / 60000 mod 60 = M
  /\ tv mod JsDate.msPerDay / 1000 mod 60 = S_
  /\ tv mod JsDate.msPerDay mod 1000 = 0.
Proof.
  intros HH HM HS tv. subst tv.
  unfold JsDate.MakeDate, JsDate.MakeTime, JsDate.msPerDay.
  set (t := H * 3600000 + M * 60000 + S_ * 1000 + 0).
  assert (Ht : 0 <= t < 86400000) by (subst t; lia).
  assert (E1 : (day * 86400000 + t) / 86400000 = day)
    by (symmetry; apply Z.div_unique with (r := t); lia).
  assert (E2 : (day * 86400000 + t) mod 86400000 = t)
    by (symmetry; apply Z.mod_unique with (q := day); lia).
  rewrite E1, E2. split; [reflexivity|].
  assert (E3 : t / 3600000 = H)
    by (symmetry; apply Z.div_unique with (r := M * 60000 + S_ * 1000); subst t; lia).
  assert (E4 : t / 60000 = H * 60 + M)
    by (symmetry; apply Z.div_unique with (r := S_ * 1000); subst t; lia).
  assert (E5 : t / 1000 = H * 3600 + M * 60 + S_)
    by (symmetry; apply Z.div_unique with (r := 0); subst t; lia).
  assert (E6 : t mod 1000 = 0)
    by (symmetry; apply Z.mod_unique with (q := H * 3600 + M * 60 + S_); subst t; lia).
  rewrite E3, E4, E5, E6.
  repeat split.
  - symmetry; apply Z.mod_unique with (q := H); lia.
  - symmetry; apply Z.mod_unique with (q := H * 60 + M); lia.
Qed.

(** X6. [toIso] is [null] exactly when one of its arguments is not six
    digits: whatever six digits it is given, it answers a date. *)
Theorem toIso_null_iff (dmy hms : JsString.t) :
  toIso dmy hms = None <-> sixDigits dmy = false \/ sixDigits hms = false.
Proof.
  split; [|apply toIso_malformed].
  intros H. destruct (sixDigits dmy) eqn:Ed; [|now left].
  destruct (sixDigits hms) eqn:Eh; [|now right].
  destruct (toIso_guard_never_fires dmy hms Ed Eh) as [t Ht]. congruence.
Qed.

(** X7. For the digits of a day that exists, in a month from 01 to 12, and
    a time from 00:00:00 to 23:59:59, [toIso] is the ISO string of that
    day of the century and that time, digit for digit. *)
Theorem toIso_valid_date (a b c d e f a' b' c' d' e' f' : ascii) :
  sixDigits [a; b; c; d; e; f] = true ->
  sixDigits [a'; b'; c'; d'; e'; f'] = true ->
  1 <= twoDigitVal c d <= 12 ->
  1 <= twoDigitVal a b <= daysInMonth (2000 + twoDigitVal e f) (twoDigitVal c d) ->
  twoDigitVal a' b' <= 23 -> twoDigitVal c' d' <= 59 -> twoDigitVal e' f' <= 59 ->
  toIso [a; b; c; d; e; f] [a'; b'; c'; d'; e'; f']
  = Some ("2"%char :: "0"%char :: e :: f :: "-"%char :: c :: d :: "-"%char :: a :: b
          :: "T"%char :: a' :: b' :: ":"%char :: c' :: d' :: ":"%char :: e' :: f'
          :: str ".000Z").
Proof.
  intros Hd Hh Hmon Hday HH HM HS.
  unfold toIso. rewrite Hd, Hh. cbn [negb orb].
  destruct (sixDigits_inv _ Hd) as (x1 & x2 & x3 & x4 & x5 & x6 & E & Da & Db & Dc & Dd & De & Df).
  injection E as <- <- <- <- <- <-.
  destruct (sixDigits_inv _ Hh) as (y1 & y2 & y3 & y4 & y5 & y6 & E & Da' & Db' & Dc' & Dd' & De' & Df').
  injection E as <- <- <- <- <- <-.
  change (slice [a; b; c; d; e; f] 0 2) with [a; b].
  change (slice [a; b; c; d; e; f] 2 4) with [c; d].
  change (slice [a; b; c; d; e; f] 4 6) with [e; f].
  change (slice [a'; b'; c'; d'; e'; f'] 0 2) with [a'; b'].
  change (slice [a'; b'; c'; d'; e'; f'] 2 4) with [c'; d'].
  change (slice [a'; b'; c'; d'; e'; f'] 4 6) with [e'; f'].
  destruct (twoDigits a b Da Db) as (E1 & _ & _ & B1).
  destruct (twoDigits c d Dc Dd) as (_ & E2 & _ & B2).
  destruct (twoDigits e f De Df) as (_ & _ & E3 & B3).
  destruct (twoDigits a' b' Da' Db') as (E4 & _ & _ & B4).
  destruct (twoDigits c' d' Dc' Dd') as (E5 & _ & _ & B5).
  destruct (twoDigits e' f' De' Df') as (E6 & _ & _ & B6).
  fold (twoDigitVal a b) in *. fold (twoDigitVal c d) in *. fold (twoDigitVal e f) in *.
  fold (twoDigitVal a' b') in *. fold (twoDigitVal c' d') in *. fold (twoDigitVal e' f') in *.
  unfold JsDate.UTC. rewrite E1, E2, E3, E4, E5, E6.
  destruct ((0 <=? twoDigitVal e f + 2000) && (twoDigitVal e f + 2000 <=? 99)) eqn:Ey.
  { apply andb_true_iff in Ey. rewrite !Z.leb_le in Ey. lia. }
  rewrite TimeClip_fields by lia. f_equal.
  unfold JsDate.toISOString.
  destruct (time_of_day (JsDate.MakeDay (twoDigitVal e f + 2000) (twoDigitVal c d - 1) (twoDigitVal a b))
              (twoDigitVal a' b') (twoDigitVal c' d') (twoDigitVal e' f')
              ltac:(lia) ltac:(lia) ltac:(lia)) as (T1 & T2 & T3 & T4 & T5).
  rewrite T1, T2, T3, T4, T5.
  replace (twoDigitVal e f + 2000) with (2000 + twoDigitVal e f) by lia.
  rewrite civil_of_day by lia.
  destruct ((0 <=? 2000 + twoDigitVal e f) && (2000 + twoDigitVal e f <=? 9999)) eqn:Ey2.
  2:{ apply andb_false_iff in Ey2. rewrite !Z.leb_gt in Ey2. lia. }
  destruct (pad_digits a b Da Db) as [P1 _], (pad_digits c d Dc Dd) as [P2 _],
           (pad_digits e f De Df) as [_ P3], (pad_digits a' b' Da' Db') as [P4 _],
           (pad_digits c' d' Dc' Dd') as [P5 _], (pad_digits e' f' De' Df') as [P6 _].
  rewrite P1, P2, P3, P4, P5, P6. reflexivity.
Qed.

Lemma parseFrame_structured now vendor deviceId third payload :
  ~ In "*"%char vendor -> ~ In "*"%char deviceId -> ~ In "*"%char third ->
  parseFrame now
    ("["%char :: (vendor ++ "*"%char :: deviceId ++ "*"%char :: third ++ "*"%char :: payload)
       ++ ["]"%char])
  = Some (let csv := tl (split payload ",") in
          if Z.of_nat (length csv) <? 9
          then Event (mkEvent deviceId vendor (hd [] (split payload ",")) payload)
          else Position
                 (mkPosition deviceId vendor (hd [] (split payload ","))
                    (toIso (field csv 0) (field csv 1))
                    (bool_decide (field csv 2 = str "A"))
                    (signedCoord (field csv 3) (field csv 4))
                    (signedCoord (field csv 5) (field csv 6))
                    (finiteOrNull (ofString (field csv 7)))
                    (finiteOrNull (ofString (field csv 8))) payload now)).
Proof.
  intros Hv Hd Ht. unfold parseFrame. rewrite slice_strip.
  rewrite !split_cons by assumption.
  pose proof (split_not_nil payload "*") as Hne.
  destruct (split payload "*") as [|x l] eqn:Es; [contradiction|].
  cbn [length nth skipn].
  match goal with |- context [?a <? 4] => destruct (Z.ltb_spec a 4); [lia|] end.
  rewrite <- Es, join_split. cbn zeta.
  destruct (Z.of_nat (length (tl (split payload ","))) <? 9); reflexivity.
Qed.

(** X8. A frame [[body]] fails to decode exactly when [body] has fewer
    than three [*]; a record that is decoded gives the body back:
    [body] is its vendor, its device identifier, a third component and
    its [raw], with [*] between, and [raw] begins with its [cmd], which
    ends at the first comma; it is an event exactly when [raw] has
    fewer than nine commas. *)
Theorem parseFrame_round_trip (now body : JsString.t) :
  (parseFrame now ("["%char :: body ++ ["]"%char]) = None <-> (occurrences "*" body < 3)%nat)
  /\ forall r,
       parseFrame now ("["%char :: body ++ ["]"%char]) = Some r ->
       (exists third,
          body = vendorOf r ++ "*"%char :: deviceIdOf r ++ "*"%char :: third ++ "*"%char :: rawOf r
          /\ ~ In "*"%char (vendorOf r) /\ ~ In "*"%char (deviceIdOf r) /\ ~ In "*"%char third)
       /\ ~ In ","%char (cmdOf r)
       /\ (rawOf r = cmdOf r \/ exists rest, rawOf r = cmdOf r ++ ","%char :: rest)
       /\ match r with
          | Event _ => (occurrences "," (rawOf r) < 9)%nat
          | Position _ => (9 <= occurrences "," (rawOf r))%nat
          end.
Proof.
  destruct (Nat.lt_ge_cases (occurrences "*" body) 3) as [Hlt|Hge].
  - assert (E : parseFrame now ("["%char :: body ++ ["]"%char]) = None).
    { unfold parseFrame. rewrite slice_strip, split_length.
      destruct (Z.ltb_spec (Z.of_nat (S (occurrences "*" body))) 4); [reflexivity|lia]. }
    rewrite E. split; [tauto|discriminate].
  - destruct (split_three "*" body Hge) as (v & d & t & payload & -> & Hv & Hd & Ht).
    rewrite parseFrame_structured by assumption. split.
    + split; [discriminate|lia].
    + intros r [= <-].
      pose proof (split_not_nil payload ",") as Hne.
      pose proof (split_pieces "," payload) as Hp.
      pose proof (join_split "," payload) as Hj.
      pose proof (split_length "," payload) as Hl.
      destruct (split payload ",") as [|c0 csv]; [contradiction|].
      cbn [hd tl length] in *. injection Hl as Hl.
      apply Forall_cons_iff in Hp. destruct Hp as [Hc _].
      assert (Hraw : payload = c0 \/ exists rest, payload = c0 ++ ","%char :: rest).
      { rewrite <- Hj. destruct csv as [|x l]; [now left|right].
        now exists (join "," (x :: l)). }
      cbn zeta. destruct (Z.ltb_spec (Z.of_nat (length csv)) 9);
        cbn [vendorOf deviceIdOf rawOf cmdOf ev_vendor ev_deviceId ev_raw ev_cmd
             vendor deviceId raw cmd];
        (split; [exists t; auto|]); (split; [assumption|]); (split; [assumption|]); lia.
Qed.

Lemma mul_not_nan x y :
  isFinite x = true -> isFinite y = true -> isNaN (mul x y) = false.
Proof.
  destruct x as [sx|sx| |sx mx ex], y as [sy|sy| |sy my ey]; try discriminate; intros _ _;
    try reflexivity.
  unfold mul, SFmul. apply binary_round_aux_not_nan. lia.
Qed.

(** X9. A decoded position holds no [NaN]: its speed and course are finite
    or null, its coordinates are null or a number (which may be an
    infinity), the speed in knots is a number, and [receivedAt] is the
    clock at the call. *)
Theorem decoded_numbers (now frame : JsString.t) (p : PositionRecord) :
  parseFrame now frame = Some (Position p) ->
  (forall x, speedKph p = Some x -> isFinite x = true /\ isNaN (kphToKnots x) = false)
  /\ (forall x, course p = Some x -> isFinite x = true)
  /\ (forall x, lat p = Some x -> isNaN x = false)
  /\ (forall x, lon p = Some x -> isNaN x = false)
  /\ receivedAt p = now.
Proof.
  unfold parseFrame. destruct (_ <? 4); [discriminate|].
  destruct (_ <? 9); [discriminate|].
  intros [= <-]. cbn [speedKph course lat lon receivedAt].
  assert (Hfin : forall v x, finiteOrNull v = Some x -> isFinite x = true).
  { intros v x. unfold finiteOrNull. destruct (isFinite v) eqn:E; [|discriminate].
    now intros [= <-]. }
  assert (Hco : forall v h x, signedCoord v h = Some x -> isNaN x = false).
  { intros v h x H. destruct (signedCoord_some _ _ _ H) as [Hn ->].
    destruct (southOrWest h); [apply neg_not_nan|]; now apply abs_not_nan. }
  repeat split; eauto.
  apply mul_not_nan; [eauto|reflexivity].
Qed.

End DecoderMore.

(** ** The handler over runs of records, and the API on the store *)

Section Runs.

Import JsNumber.

Variable cfg : Config.

Lemma runRecords_snoc rs r w :
  runRecords cfg (rs ++ [r]) w = processRecord cfg r (runRecords cfg rs w).
Proof. unfold runRecords. now rewrite fold_left_app. Qed.

Lemma runRecords_app rs1 rs2 w :
  runRecords cfg (rs1 ++ rs2) w = runRecords cfg rs2 (runRecords cfg rs1 w).
Proof. unfold runRecords. now rewrite fold_left_app. Qed.

Lemma processFrames_run clock i fs w :
  processFrames cfg clock i fs w = runRecords cfg (decodeFrames clock i fs) w.
Proof.
  revert i w. induction fs as [|f fs IH]; intros i w; [reflexivity|].
  cbn [processFrames decodeFrames]. unfold processFrame.
  destruct (parseFrame (clock i) f); rewrite IH; reflexivity.
Qed.

Lemma processRecord_effects pos w :
  logged (processRecord cfg pos w)
  = logged w ++ (if hasUsableCoords cfg pos then [pos] else [])
  /\ forwarded (processRecord cfg pos w)
     = forwarded w ++ (if hasUsableCoords cfg pos && policyForwards cfg pos
                       then [forwardPosition cfg pos] else []).
Proof.
  destruct (hasUsableCoords cfg pos) eqn:E.
  - rewrite (processRecord_usable cfg pos w E). cbn [logged forwarded andb]. auto.
  - rewrite (processRecord_unusable cfg pos w E). cbn [logged forwarded andb].
    now rewrite !app_nil_r.
Qed.

(** X10. Whatever records are decoded, in whatever order: the log gets
    those with usable coordinates, in order, and nothing else; the
    backend gets the request of each logged record the policy lets
    through, in order, and nothing else.  So an event is never logged
    or forwarded, and with forwarding disabled nothing is sent. *)
Theorem log_and_forwards (rs : list Decoded) (w : World) :
  logged (runRecords cfg rs w) = logged w ++ List.filter (hasUsableCoords cfg) rs
  /\ forwarded (runRecords cfg rs w)
     = forwarded w
       ++ map (forwardPosition cfg)
            (List.filter (policyForwards cfg) (List.filter (hasUsableCoords cfg) rs))
  /\ (forall e, ~ In (Event e) (logged (runRecords cfg rs emptyWorld)))
  /\ (FORWARD_ENABLED cfg = false -> forwarded (runRecords cfg rs w) = forwarded w).
Proof.
  assert (H : forall rs w,
             logged (runRecords cfg rs w) = logged w ++ List.filter (hasUsableCoords cfg) rs
             /\ forwarded (runRecords cfg rs w)
                = forwarded w
                  ++ map (forwardPosition cfg)
                       (List.filter (policyForwards cfg) (List.filter (hasUsableCoords cfg) rs))).
  { clear. intros rs. induction rs as [|r rs IH]; intros w.
    - cbn. now rewrite !app_nil_r.
    - change (runRecords cfg (r :: rs) w) with (runRecords cfg rs (processRecord cfg r w)).
      destruct (IH (processRecord cfg r w)) as [IHl IHf]. rewrite IHl, IHf.
      destruct (processRecord_effects r w) as [-> ->].
      cbn [List.filter]. destruct (hasUsableCoords cfg r); cbn [andb List.filter].
      + destruct (policyForwards cfg r); cbn [map]; now rewrite <- !app_assoc.
      + now rewrite !app_nil_r. }
  destruct (H rs w) as [Hl Hf]. split; [exact Hl|]. split; [exact Hf|]. split.
  - intros e Hin. destruct (H rs emptyWorld) as [Hl' _]. rewrite Hl' in Hin.
    cbn [logged emptyWorld app] in Hin. apply filter_In in Hin.
    destruct Hin as [_ Hu]. apply hasUsableCoords_true in Hu.
    destruct Hu as (x & y & Hx & _). discriminate Hx.
  - intros Hoff. rewrite Hf.
    assert (E : forall l, List.filter (policyForwards cfg) l = []).
    { induction l as [|a l IHl]; [reflexivity|]. cbn [List.filter].
      unfold policyForwards at 1. now rewrite Hoff. }
    rewrite E. cbn [map]. apply app_nil_r.
Qed.

Lemma leading_nil {A} (p : A -> bool) : leading p [] = [].
Proof. reflexivity. Qed.

Lemma trailing_snoc {A} (p : A -> bool) (l : list A) (x : A) :
  trailing p (l ++ [x]) = if p x then trailing p l ++ [x] else [].
Proof.
  unfold trailing. rewrite rev_app_distr. cbn [rev app leading].
  destruct (p x); reflexivity.
Qed.

Lemma filter_snoc {A} (p : A -> bool) (l : list A) (x : A) :
  List.filter p (l ++ [x]) = List.filter p l ++ (if p x then [x] else []).
Proof. rewrite List.filter_app. cbn [List.filter]. destruct (p x); reflexivity. Qed.

(** X11. The entry of a device, read off the records decoded since the
    start: no entry before its first record; then its fields are those
    of its last record with usable coordinates (none if it never had
    one) and [lastEvent] is the last of its records after that one
    (none if that one is its latest).  A position that arrives erases
    the [lastEvent] kept before. *)
Theorem store_after_run (rs : list Decoded) (id : JsString.t) :
  lastPositions (runRecords cfg rs emptyWorld) !! id = entryAfter cfg id rs.
Proof.
  induction rs as [|r rs IH] using rev_ind.
  - cbn. apply lookup_empty.
  - rewrite runRecords_snoc. unfold entryAfter in *. rewrite filter_snoc.
    unfold isFrom at 2. destruct (bool_decide_reflect (deviceIdOf r = id)) as [E|E].
    + set (mine := List.filter (isFrom id) rs) in *.
      assert (Hsnoc : exists x l, mine ++ [r] = x :: l).
      { destruct mine; cbn; eauto. }
      destruct Hsnoc as (x & l & Hxl). rewrite Hxl, <- Hxl. clear x l Hxl.
      rewrite filter_snoc, trailing_snoc.
      destruct (hasUsableCoords cfg r) eqn:Hu; cbn [negb].
      * rewrite (processRecord_usable cfg r _ Hu). cbn [lastPositions].
        rewrite E, lookup_insert_eq, last_snoc. reflexivity.
      * rewrite (processRecord_unusable cfg r _ Hu). cbn [lastPositions].
        rewrite E, lookup_insert_eq, IH, app_nil_r, last_snoc.
        destruct mine; reflexivity.
    + rewrite processRecord_other by assumption. now rewrite app_nil_r.
Qed.

Lemma run_dom rs w :
  dom (lastPositions (runRecords cfg rs w))
  = dom (lastPositions w) ∪ list_to_set (map deviceIdOf rs).
Proof.
  revert w. induction rs as [|r rs IH]; intros w.
  - cbn [runRecords fold_left map]. now rewrite list_to_set_nil, union_empty_r_L.
  - change (runRecords cfg (r :: rs) w) with (runRecords cfg rs (processRecord cfg r w)).
    rewrite IH. cbn [map]. rewrite list_to_set_cons.
    assert (E : dom (lastPositions (processRecord cfg r w))
                = {[deviceIdOf r]} ∪ dom (lastPositions w)).
    { unfold processRecord.
      destruct (hasUsableCoords cfg r); [destruct (_ && _)|]; cbn [lastPositions];
        apply dom_insert_L. }
    rewrite E. apply set_eq. intros x. rewrite !elem_of_union. tauto.
Qed.

(** X12. The API on the store the handler builds: [GET /devices/:id] is 404
    exactly for an identifier of which no record was decoded, [GET /]
    counts the distinct identifiers decoded, and [GET /devices] lists
    exactly them. *)
Theorem api_after_run (rs : list Decoded) (id : JsString.t) :
  let w := runRecords cfg rs emptyWorld in
  (getDevice w id = {| status := 404; body := ErrorBody (str "unknown device") |}
   <-> ~ In id (map deviceIdOf rs))
  /\ (In id (map deviceIdOf rs) -> exists entry, getDevice w id = {| status := 200; body := OneDevice entry |})
  /\ getRoot w = {| status := 200; body := Summary true (length (remove_dups (map deviceIdOf rs))) |}
  /\ exists entries,
       getDevices w = {| status := 200; body := AllDevices entries |}
       /\ forall k, is_Some (entries !! k) <-> In k (map deviceIdOf rs).
Proof.
  intros w.
  assert (Hdom : forall k, is_Some (lastPositions w !! k) <-> In k (map deviceIdOf rs)).
  { intros k. rewrite <- elem_of_dom. subst w. rewrite run_dom.
    cbn [lastPositions emptyWorld]. rewrite dom_empty_L, elem_of_union, elem_of_list_to_set.
    rewrite list_elem_of_In, elem_of_empty. tauto. }
  split; [|split; [|split]].
  - unfold getDevice. specialize (Hdom id).
    destruct (lastPositions w !! id) as [e|] eqn:E.
    + split; [discriminate|]. intros Hn. exfalso. apply Hn, Hdom. eauto.
    + split; [|reflexivity]. intros _ Hin. apply Hdom in Hin. destruct Hin. discriminate.
  - intros Hin. apply Hdom in Hin. destruct Hin as [e He].
    exists e. unfold getDevice. now rewrite He.
  - unfold getRoot. do 2 f_equal.
    rewrite <- size_dom. subst w. rewrite run_dom.
    cbn [lastPositions emptyWorld]. rewrite dom_empty_L, union_empty_l_L.
    rewrite <- (size_list_to_set (C := gset JsString.t) (remove_dups (map deviceIdOf rs)))
      by apply NoDup_remove_dups.
    f_equal. apply set_eq. intros x.
    now rewrite !elem_of_list_to_set, elem_of_remove_dups.
  - exists (lastPositions w). split; [reflexivity|exact Hdom].
Qed.

(** X13. The handler of [index.js] beside this one: they act alike on a
    record with usable coordinates when [FORWARD_ONLY_VALID] is off,
    and on every record that lacks a coordinate; a record with both
    coordinates that are not usable (out of range, infinite, or the
    pair of zeros) is stored and logged by [index.js] and kept as
    [lastEvent] here. *)
Theorem legacy_handler (pos : Decoded) (w : World) :
  (hasUsableCoords cfg pos = true -> FORWARD_ONLY_VALID cfg = false ->
   processRecordLegacy cfg pos w = processRecord cfg pos w)
  /\ (latOf pos = None \/ lonOf pos = None ->
      processRecordLegacy cfg pos w = processRecord cfg pos w)
  /\ (hasUsableCoords cfg pos = false -> latOf pos <> None -> lonOf pos <> None ->
      logged (processRecordLegacy cfg pos w) = logged w ++ [pos]
      /\ lastPositions (processRecordLegacy cfg pos w) !! deviceIdOf pos
         = Some {| own := Some pos; lastEvent := None |}
      /\ logged (processRecord cfg pos w) = logged w
      /\ forwarded (processRecord cfg pos w) = forwarded w).
Proof.
  split; [|split].
  - intros Hu Hov. unfold processRecord, processRecordLegacy. rewrite Hu, Hov.
    apply hasUsableCoords_true in Hu. destruct Hu as (x & y & -> & -> & _).
    cbn [negb orb]. rewrite andb_true_r. reflexivity.
  - intros Hnone.
    assert (Hu : hasUsableCoords cfg pos = false).
    { destruct (hasUsableCoords cfg pos) eqn:E; [|reflexivity].
      apply hasUsableCoords_true in E. destruct E as (x & y & Hx & Hy & _).
      destruct Hnone; congruence. }
    rewrite (processRecord_unusable cfg pos w Hu). unfold processRecordLegacy.
    destruct Hnone as [-> | ->]; [reflexivity|]. destruct (latOf pos); reflexivity.
  - intros Hu Hlat Hlon. rewrite (processRecord_unusable cfg pos w Hu).
    unfold processRecordLegacy.
    destruct (latOf pos); [|contradiction]. destruct (lonOf pos); [|contradiction].
    destruct (FORWARD_ENABLED cfg); cbn [logged lastPositions forwarded];
      rewrite lookup_insert_eq; auto.
Qed.

End Runs.

(** ** The server over its connections *)

Section ServerRuns.

Variable cfg : Config.

(** X14. The store, the log and the forwards after any events on any
    connections are the loop body over the records decoded, in the
    order of arrival: frames of different connections are handled
    whole, one data event after the other. *)
Theorem server_world clocks n (evs : list SocketEvent) (s : Server) :
  world (serverRun cfg clocks n evs s)
  = runRecords cfg (serverRecords clocks n evs (buffers s)) (world s).
Proof.
  revert n s. induction evs as [|ev evs IH]; intros n s; [reflexivity|].
  cbn [serverRun serverRecords]. rewrite IH.
  destruct ev as [c|c chunk|c]; cbn [serverStep buffers world]; try reflexivity.
  destruct (buffers s !! c) as [buffer|] eqn:Eb; [|reflexivity].
  unfold onData. cbn [fst snd buffers world].
  now rewrite runRecords_app, processFrames_run.
Qed.

(** X15. Connections do not mix: while a connection stays open, its buffer
    after any events is what its own chunks leave, whatever other
    connections open, send or close in between; and what they leave is
    the rest of its own bytes taken together. *)
Theorem connection_isolated clocks n (evs : list SocketEvent) (s : Server) (c : nat)
  (buffer : JsString.t) :
  buffers s !! c = Some buffer ->
  keepsOpen c evs = true ->
  buffers (serverRun cfg clocks n evs s) !! c = Some (bufferAfter buffer (chunksOf c evs))
  /\ (~ In "]"%char buffer ->
      buffers (serverRun cfg clocks n evs s) !! c
      = Some (remainder (extractFrames (buffer ++ concat (chunksOf c evs))))).
Proof.
  intros Hb Hk.
  assert (H : buffers (serverRun cfg clocks n evs s) !! c
              = Some (bufferAfter buffer (chunksOf c evs))).
  { revert n s buffer Hb Hk. induction evs as [|ev evs IH]; intros n s buffer Hb Hk.
    - exact Hb.
    - cbn [serverRun]. destruct ev as [c'|c' chunk|c']; cbn [keepsOpen chunksOf] in *.
      + apply andb_true_iff in Hk. destruct Hk as [Hne Hk].
        apply negb_true_iff, Nat.eqb_neq in Hne.
        apply IH; [|assumption]. cbn [serverStep buffers]. now rewrite lookup_insert_ne.
      + destruct (Nat.eqb_spec c' c) as [->|Hne].
        * cbn [bufferAfter]. apply IH; [|assumption].
          cbn [serverStep]. rewrite Hb. unfold onData. cbn [fst snd buffers].
          apply lookup_insert_eq.
        * apply IH; [|assumption]. cbn [serverStep].
          destruct (buffers s !! c') as [b'|]; [|assumption].
          unfold onData. cbn [fst snd buffers]. now rewrite lookup_insert_ne.
      + apply andb_true_iff in Hk. destruct Hk as [Hne Hk].
        apply negb_true_iff, Nat.eqb_neq in Hne.
        apply IH; [|assumption]. cbn [serverStep buffers]. now rewrite lookup_delete_ne. }
  split; [exact H|]. intros Hfree. rewrite H. f_equal.
  now apply framesOfChunks_concat.
Qed.

End ServerRuns.

(** ** Configuration *)

Section ConfigFacts.

Import JsNumber.

Lemma nth_error_skipn (s : JsString.t) pos :
  nth_error s pos = hd_error (skipn pos s).
Proof.
  revert s. induction pos as [|pos IH]; intros [|c s]; try reflexivity. apply IH.
Qed.

Lemma skipn_succ (s : JsString.t) pos : skipn (S pos) s = tl (skipn pos s).
Proof.
  revert s. induction pos as [|pos IH]; intros [|c s]; try reflexivity.
  change (skipn (S (S pos)) (c :: s)) with (skipn (S pos) s). rewrite IH. reflexivity.
Qed.

Lemma skipn_length_app (a b : JsString.t) : skipn (length a) (a ++ b) = b.
Proof. induction a as [|c a IH]; [reflexivity | exact IH]. Qed.

(** A run of characters of the pattern matches the same number of
    characters of the string, letter case apart. *)
Lemma matchTerms_chars cs rest s pos :
  Regex.matchTerms true (map Regex.Char cs ++ rest) s pos = true <->
  exists t r, skipn pos s = t ++ r /\ map Regex.upper t = map Regex.upper cs
              /\ Regex.matchTerms true rest s (pos + length cs) = true.
Proof.
  revert pos. induction cs as [|p cs IH]; intros pos.
  - cbn [map app length]. rewrite Nat.add_0_r. split.
    + intros H. exists [], (skipn pos s). auto.
    + intros (t & r & _ & _ & H). exact H.
  - cbn [map app length Regex.matchTerms Regex.sameChar].
    rewrite nth_error_skipn. split.
    + destruct (skipn pos s) as [|c k] eqn:Ek; cbn [hd_error]; [discriminate|].
      rewrite andb_true_iff, Ascii.eqb_eq. intros [Hc H].
      apply IH in H. destruct H as (t & r & Hk & Ht & H).
      rewrite skipn_succ, Ek in Hk. cbn [tl] in Hk. subst k.
      exists (c :: t), r. cbn [map]. rewrite Ht, Hc, Nat.add_succ_r. auto.
    + intros (t & r & Hk & Ht & H). destruct t as [|c t]; [discriminate|].
      cbn [map] in Ht. injection Ht as Hc Ht.
      rewrite Hk. cbn [app hd_error]. rewrite andb_true_iff, Ascii.eqb_eq.
      split; [congruence|]. apply IH. exists t, r.
      rewrite skipn_succ, Hk, Nat.add_succ_r in *. auto.
Qed.

Lemma upper_one c : Regex.upper c = "1"%char -> c = "1"%char.
Proof. destruct c as [[] [] [] [] [] [] [] []]; vm_compute; congruence. Qed.

Lemma flag_test s : Regex.test true flagPattern s = true <-> flagOn s.
Proof.
  unfold Regex.test. rewrite existsb_exists. unfold flagOn. split.
  - intros (pos & Hpos & H). apply in_seq in Hpos.
    pose proof (firstn_skipn pos s) as Hs.
    pose proof (length_skipn pos s) as Hlen.
    unfold flagPattern in H. cbn [existsb] in H.
    rewrite !orb_true_iff in H. destruct H as [H|[H|[H|[H|H]]]]; [| | | |discriminate].
    + cbn [Regex.matchTerms] in H. apply andb_true_iff in H. destruct H as [H0 H].
      apply Nat.eqb_eq in H0. subst pos.
      apply (matchTerms_chars ["t"; "r"; "u"; "e"]%char [] s 0%nat) in H.
      destruct H as (t & r & Hk & Ht & _). left. exists t, r. auto.
    + apply (matchTerms_chars ["1"%char] [] s pos) in H.
      destruct H as (t & r & Hk & Ht & _). right; left.
      destruct t as [|c [|? ?]]; try discriminate.
      injection Ht as Hc. apply upper_one in Hc. subst c.
      rewrite <- Hs, Hk. apply in_or_app. right. left. reflexivity.
    + apply (matchTerms_chars ["y"; "e"; "s"]%char [] s pos) in H.
      destruct H as (t & r & Hk & Ht & _). right; right; left.
      exists (firstn pos s), t, r. rewrite <- Hk. auto.
    + apply (matchTerms_chars ["o"; "n"]%char [Regex.Eol] s pos) in H.
      destruct H as (t & r & Hk & Ht & He). right; right; right.
      cbn [Regex.matchTerms length] in He. rewrite andb_true_r in He.
      apply Nat.eqb_eq in He.
      assert (Hl : length t = 2%nat)
        by (apply (f_equal (@length ascii)) in Ht; rewrite length_map in Ht; exact Ht).
      rewrite Hk, length_app in Hlen.
      assert (r = []) by (destruct r; [reflexivity | cbn [length] in Hlen; lia]).
      subst r. rewrite app_nil_r in Hk.
      exists (firstn pos s), t. split; [rewrite <- Hk; auto | exact Ht].
  - intros [(t & r & Hs & Ht)|[H1|[(a & y & b & Hs & Hy)|(a & o & Hs & Ho)]]].
    + exists 0%nat. split; [apply in_seq; lia|].
      unfold flagPattern. cbn [existsb]. apply orb_true_iff. left.
      cbn [Regex.matchTerms]. apply andb_true_iff. split; [reflexivity|].
      apply (matchTerms_chars ["t"; "r"; "u"; "e"]%char [] s 0%nat).
      exists t, r. auto.
    + apply in_split in H1. destruct H1 as (a & b & Hs).
      exists (length a). split; [apply in_seq; subst s; rewrite length_app; lia|].
      unfold flagPattern. cbn [existsb]. rewrite !orb_true_iff. right; left.
      apply (matchTerms_chars ["1"%char] [] s (length a)).
      exists ["1"%char], b. subst s. rewrite skipn_length_app. auto.
    + exists (length a). split; [apply in_seq; subst s; rewrite length_app; lia|].
      unfold flagPattern. cbn [existsb]. rewrite !orb_true_iff. right; right; left.
      apply (matchTerms_chars ["y"; "e"; "s"]%char [] s (length a)).
      exists y, b. subst s. rewrite skipn_length_app. auto.
    + assert (Hl : length o = 2%nat)
        by (apply (f_equal (@length ascii)) in Ho; rewrite length_map in Ho; exact Ho).
      exists (length a). split; [apply in_seq; subst s; rewrite length_app; lia|].
      unfold flagPattern. cbn [existsb]. rewrite !orb_true_iff. right; right; right; left.
      apply (matchTerms_chars ["o"; "n"]%char [Regex.Eol] s (length a)).
      exists o, []. subst s. rewrite skipn_length_app, app_nil_r.
      split; [reflexivity|]. split; [exact Ho|].
      cbn [Regex.matchTerms length]. rewrite andb_true_r. apply Nat.eqb_eq.
      rewrite length_app. lia.
Qed.

(** X16. A flag of the configuration is on exactly when the value of the
    variable, or the default when the variable is not set, begins with
    [true], or holds a [1] anywhere, or holds [yes] anywhere, or ends
    with [on], letter case apart: the anchors of the pattern bind to its
    first and last alternative only.  So [0] and [off] switch a flag
    off, and so does the empty string, while [10], [eyes], [true-ish]
    and [button] switch it on. *)
Theorem flag_reading (value : option JsString.t) (dflt : JsString.t) :
  (envFlag value dflt = true <->
   flagOn (match value with Some v => v | None => dflt end))
  /\ (forall v, envFlag (Some v) dflt = envFlag (Some v) [])
  /\ (forall a b, In "1"%char (a ++ b) -> envFlag (Some (a ++ b)) dflt = true)
  /\ (forall a b, envFlag (Some (a ++ JsString.str "yes" ++ b)) dflt = true)
  /\ (forall a, envFlag (Some (JsString.str "TRUE" ++ a)) dflt = true)
  /\ (forall a, envFlag (Some (a ++ JsString.str "On")) dflt = true)
  /\ envFlag (Some []) (JsString.str "true") = false
  /\ envFlag (Some (JsString.str "off")) (JsString.str "true") = false
  /\ envFlag (Some (JsString.str "0")) (JsString.str "true") = false.
Proof.
  split; [apply flag_test|].
  split; [reflexivity|].
  split; [intros a b H; apply flag_test; right; left; exact H|].
  split; [intros a b; apply flag_test; right; right; left;
          exists a, (JsString.str "yes"), b; auto|].
  split; [intros a; apply flag_test; left; exists (JsString.str "TRUE"), a; auto|].
  split; [intros a; apply flag_test; right; right; right;
          exists a, (JsString.str "On"); auto|].
  repeat split; reflexivity.
Qed.

(** X17. A number of the configuration.  A variable that is not set or
    empty gives the default; any other value is converted as it stands,
    so a blank one gives 0 and one that is no numeric literal gives
    [NaN]: the default never stands in for a value that does not
    parse. *)
Theorem number_reading (value : option JsString.t) (dflt : Z) :
  (isNaN (envNumber value dflt) = true <->
   exists v, value = Some v /\ ~ blank v /\ isNumeric v = false)
  /\ ((value = None \/ value = Some []) -> envNumber value dflt = ofZ dflt)
  /\ (forall v, value = Some v -> v <> [] -> blank v ->
      envNumber value dflt = S754_zero false).
Proof.
  assert (Hnum : forall v, isNumeric v = false <-> parseNumericLiteral (trim v) = None).
  { intros v. unfold isNumeric. destruct (parseNumericLiteral (trim v)); split; congruence. }
  split; [|split].
  - destruct value as [[|c r]|]; cbn [envNumber].
    + rewrite ofZ_not_nan. split; [discriminate|].
      intros (v & Hv & Hb & _). injection Hv as <-. contradiction Hb. reflexivity.
    + rewrite ofString_nan. split.
      * intros [Hb Hp]. exists (c :: r). split; [reflexivity|]. split; [exact Hb|].
        apply Hnum. exact Hp.
      * intros (v & Hv & Hb & Hp). injection Hv as <-. split; [exact Hb|].
        apply Hnum. exact Hp.
    + rewrite ofZ_not_nan. split; [discriminate|]. intros (v & Hv & _). discriminate.
  - intros [->| ->]; reflexivity.
  - intros v -> Hne Hb. destruct v as [|c r]; [contradiction|].
    cbn [envNumber]. unfold ofString. unfold blank in Hb. rewrite Hb. reflexivity.
Qed.

Lemma flagOn_true : flagOn (JsString.str "true").
Proof. apply flag_test. reflexivity. Qed.

Lemma flagOn_false : ~ flagOn (JsString.str "false").
Proof. intros H. apply flag_test in H. discriminate. Qed.

Lemma envFlag_on_by_default value :
  envFlag value (JsString.str "true") = false <->
  exists v, value = Some v /\ ~ flagOn v.
Proof.
  destruct value as [v|]; unfold envFlag.
  - split.
    + intros H. exists v. split; [reflexivity|]. intros Hv. apply flag_test in Hv. congruence.
    + intros (v' & Hv & Hn). injection Hv as <-.
      destruct (Regex.test true flagPattern v) eqn:E; [|reflexivity].
      contradiction Hn. apply flag_test. exact E.
  - split; [discriminate|]. intros (v & Hv & _). discriminate.
Qed.

Lemma envFlag_off_by_default value :
  envFlag value (JsString.str "false") = true <->
  exists v, value = Some v /\ flagOn v.
Proof.
  destruct value as [v|]; unfold envFlag.
  - rewrite flag_test. split.
    + intros H. exists v. auto.
    + intros (v' & Hv & Hn). injection Hv as <-. exact Hn.
  - split; [discriminate|]. intros (v & Hv & _). discriminate.
Qed.

(** X18. The configuration read from the environment.  With nothing set
    it is the documented default.  Forwarding, and the restriction to
    valid fixes, are on unless their variable is set to a value that
    does not read as on; zero coordinates are allowed only when their
    variable is set to a value that reads as on; the target is the
    variable unless it is unset or empty; and no other variable of the
    environment changes any of the four. *)
Theorem config_reading (env : gmap JsString.t JsString.t) :
  loadConfig ∅ = defaultConfig
  /\ (FORWARD_ENABLED (loadConfig env) = false <->
      exists v, env !! JsString.str "FORWARD_ENABLED" = Some v /\ ~ flagOn v)
  /\ (FORWARD_ONLY_VALID (loadConfig env) = false <->
      exists v, env !! JsString.str "FORWARD_ONLY_VALID" = Some v /\ ~ flagOn v)
  /\ (FORWARD_ALLOW_ZERO_COORDS (loadConfig env) = true <->
      exists v, env !! JsString.str "FORWARD_ALLOW_ZERO_COORDS" = Some v /\ flagOn v)
  /\ (forall v : JsString.t, env !! JsString.str "FORWARD_URL" = Some v -> v <> [] ->
      FORWARD_URL (loadConfig env) = v)
  /\ (forall k v,
        ~ In k [JsString.str "FORWARD_URL"; JsString.str "FORWARD_ENABLED";
                JsString.str "FORWARD_ONLY_VALID";
                JsString.str "FORWARD_ALLOW_ZERO_COORDS"] ->
        loadConfig (<[k := v]> env) = loadConfig env).
Proof.
  split; [reflexivity|].
  split; [apply envFlag_on_by_default|].
  split; [apply envFlag_on_by_default|].
  split; [apply envFlag_off_by_default|].
  split.
  - intros v Hv Hne. unfold loadConfig. cbn [FORWARD_URL]. rewrite Hv.
    destruct v; [contradiction|reflexivity].
  - intros k v Hk. unfold loadConfig.
    rewrite !lookup_insert_ne; [reflexivity| | | |];
      intros ->; apply Hk; cbn [In]; auto.
Qed.

End ConfigFacts.

(** ** The query of a forwarded request *)

Section QueryFacts.

Lemma encodeChar_safe c : forallb isQuerySafe (URLSearchParams.encodeChar c) = true.
Proof. destruct c as [[] [] [] [] [] [] [] []]; reflexivity. Qed.

Lemma encode_safe s : forallb isQuerySafe (URLSearchParams.encode s) = true.
Proof.
  unfold URLSearchParams.encode. induction s as [|c s IH]; [reflexivity|].
  cbn [map concat]. rewrite forallb_app, encodeChar_safe, IH. reflexivity.
Qed.

Lemma safe_count l x :
  forallb isQuerySafe l = true -> isQuerySafe x = false -> occurrences x l = 0%nat.
Proof.
  intros Hl Hx. unfold occurrences. apply count_occ_not_In. intros Hin.
  rewrite forallb_forall in Hl. rewrite (Hl x Hin) in Hx. discriminate.
Qed.

Lemma occurrences_app x a b : occurrences x (a ++ b) = (occurrences x a + occurrences x b)%nat.
Proof. apply count_occ_app. Qed.

Lemma occurrences_cons x c s :
  occurrences x (c :: s) = ((if Ascii.eqb c x then 1 else 0) + occurrences x s)%nat.
Proof.
  unfold occurrences. cbn [count_occ].
  destruct (ascii_dec c x) as [->|Hne].
  - rewrite Ascii.eqb_refl. reflexivity.
  - apply Ascii.eqb_neq in Hne. rewrite Hne. reflexivity.
Qed.

Lemma toString_cons n v p r :
  URLSearchParams.toString ((n, v) :: p :: r)
  = URLSearchParams.encode n ++ "="%char :: URLSearchParams.encode v
    ++ "&"%char :: URLSearchParams.toString (p :: r).
Proof. reflexivity. Qed.

(** A character the serialiser does not leave in a name or a value
    occurs in a query only as a separator. *)
Lemma toString_count ps x :
  isQuerySafe x = false ->
  occurrences x (URLSearchParams.toString ps)
  = ((if Ascii.eqb "="%char x then length ps else 0)
     + (if Ascii.eqb "&"%char x then length ps - 1 else 0))%nat.
Proof.
  intros Hx. induction ps as [|[n v] ps IH].
  - cbn [URLSearchParams.toString length]. destruct (Ascii.eqb "=" x), (Ascii.eqb "&" x); reflexivity.
  - destruct ps as [|p r].
    + cbn [URLSearchParams.toString length].
      rewrite occurrences_app, occurrences_cons, !(safe_count _ x (encode_safe _) Hx).
      destruct (Ascii.eqb "=" x), (Ascii.eqb "&" x); reflexivity.
    + rewrite toString_cons.
      rewrite occurrences_app, occurrences_cons, occurrences_app, occurrences_cons, IH.
      rewrite !(safe_count _ x (encode_safe _) Hx). cbn [length].
      destruct (Ascii.eqb "=" x), (Ascii.eqb "&" x); lia.
Qed.

Lemma toString_chars ps x :
  In x (URLSearchParams.toString ps) ->
  x = "="%char \/ x = "&"%char \/ isQuerySafe x = true.
Proof.
  assert (Henc : forall s, In x (URLSearchParams.encode s) -> isQuerySafe x = true).
  { intros s Hin. pose proof (encode_safe s) as H. rewrite forallb_forall in H. auto. }
  induction ps as [|[n v] ps IH]; [intros []|].
  destruct ps as [|p r].
  - cbn [URLSearchParams.toString]. intros Hin. apply in_app_or in Hin.
    destruct Hin as [Hin|[<-|Hin]]; eauto.
  - rewrite toString_cons. intros Hin. apply in_app_or in Hin.
    destruct Hin as [Hin|[<-|Hin]]; eauto.
    apply in_app_or in Hin. destruct Hin as [Hin|[<-|Hin]]; eauto.
Qed.

Ltac notAmong :=
  let H := fresh in
  intros H; cbn [In] in H; repeat (destruct H as [H|H]; [discriminate H|]); exact H.

Lemma forwardParams_names pos :
  (3 <= length (forwardParams pos) <= 7)%nat /\ List.NoDup (map fst (forwardParams pos)).
Proof.
  rewrite <- (length_map fst).
  remember (map fst (forwardParams pos)) as l eqn:El.
  destruct pos as [e|[dev ven cm ti va la lo sp co ra re]].
  - vm_compute in El. subst l. split; [cbn [length]; lia|].
    repeat (constructor; [notAmong|]). constructor.
  - unfold forwardParams in El. cbn [time speedKph course] in El.
    destruct ti as [[|c t]|], sp, co; vm_compute in El; subst l;
      (split; [cbn [length]; lia|]); repeat (constructor; [notAmong|]); constructor.
Qed.

(** X19. The query of a request.  Whatever the device identifier and the
    other properties of a record hold, the query has between three and
    seven parameters with different names, exactly one [=] for each and
    one [&] between two of them, and every other character of it is a
    letter, a digit or one of [* - . _ + %]: no text of a frame can add,
    end or split a parameter, or end the query. *)
Theorem query_integrity (cfg : Config) (pos : Decoded) :
  let ps := forwardParams pos in
  let q := URLSearchParams.toString ps in
  url (forwardPosition cfg pos) = FORWARD_URL cfg ++ "?"%char :: q
  /\ (3 <= length ps <= 7)%nat
  /\ List.NoDup (map fst ps)
  /\ occurrences "=" q = length ps
  /\ S (occurrences "&" q) = length ps
  /\ (forall x, In x q -> x = "="%char \/ x = "&"%char \/ isQuerySafe x = true)
  /\ ~ In " "%char q /\ ~ In "#"%char q /\ ~ In "?"%char q /\ ~ In "/"%char q.
Proof.
  cbv zeta. pose proof (forwardParams_names pos) as [Hlen Hnd].
  assert (Hno : forall x, isQuerySafe x = false -> x <> "="%char -> x <> "&"%char ->
                          ~ In x (URLSearchParams.toString (forwardParams pos))).
  { intros x Hx H1 H2 Hin. apply toString_chars in Hin.
    destruct Hin as [?|[?|?]]; congruence. }
  split; [reflexivity|]. split; [exact Hlen|]. split; [exact Hnd|].
  split; [rewrite toString_count by reflexivity; cbn; lia|].
  split; [rewrite toString_count by reflexivity; cbn; lia|].
  split; [apply toString_chars|].
  repeat split; apply Hno; (reflexivity || discriminate).
Qed.

End QueryFacts.

(** ** The further properties at concrete inputs *)

Lemma absent_count x s : occurrences x s = 0%nat -> ~ In x s.
Proof. intros H. apply (count_occ_not_In ascii_dec). exact H. Qed.

Lemma frames_of_stream_witness :
  extractFrames (str "noise" ++ specFrame ++ eventFrame ++ openTail)
  = {| frames := [specFrame; eventFrame]; remainder := openTail |}.
Proof.
  apply (frames_of_stream noisyItems openTail).
  - repeat constructor.
    + apply absent_count. reflexivity.
    + exists (removelast (tl specFrame)). split; [reflexivity|].
      apply absent_count. reflexivity.
    + apply absent_count. reflexivity.
    + exists (removelast (tl eventFrame)). split; [reflexivity|].
      apply absent_count. reflexivity.
  - apply absent_count. reflexivity.
Defined.

Lemma stray_close_drops_witness :
  ~ In "["%char (str "noise")
  /\ extractFrames (str "noise" ++ "]"%char :: specFrame) = extractFrames specFrame.
Proof.
  assert (H : ~ In "["%char (str "noise")) by (apply absent_count; reflexivity).
  split; [exact H|]. exact (stray_close_drops (str "noise") specFrame H).
Defined.

Lemma toIso_valid_date_witness :
  toIso (str "290224") (str "235959") = Some (str "2024-02-29T23:59:59.000Z").
Proof.
  apply (toIso_valid_date "2" "9" "0" "2" "2" "4" "2" "3" "5" "9" "5" "9");
    vm_compute; try reflexivity; repeat split; discriminate.
Defined.

Lemma decoded_numbers_witness :
  parseFrame noon specFrame = Some (Position (specPosition noon))
  /\ JsNumber.isFinite (JsNumber.ofZ 36) = true
  /\ JsNumber.isNaN (kphToKnots (JsNumber.ofZ 36)) = false.
Proof.
  assert (H : parseFrame noon specFrame = Some (Position (specPosition noon)))
    by (vm_compute; reflexivity).
  split; [exact H|].
  apply (proj1 (decoded_numbers noon specFrame (specPosition noon) H)). reflexivity.
Defined.

Lemma connection_isolated_witness :
  buffers oneClient !! 1%nat = Some []
  /\ keepsOpen 1 twoClients = true
  /\ buffers (serverRun defaultConfig (fun _ _ => noon) 1 twoClients oneClient) !! 1%nat
     = Some (str "tail").
Proof.
  assert (H1 : buffers oneClient !! 1%nat = Some []) by (vm_compute; reflexivity).
  assert (H2 : keepsOpen 1 twoClients = true) by reflexivity.
  split; [exact H1|]. split; [exact H2|].
  rewrite (proj1 (connection_isolated defaultConfig (fun _ _ => noon) 1 twoClients oneClient
                    1%nat [] H1 H2)).
  vm_compute. reflexivity.
Defined.
